(** * clock-weather: the JSON value extractor and the once-per-second loop

    A shallow embedding of [rpi-lib/examples-api-use/clock-weather.cc]:
    [extractJsonValue], the response parsing of [fetchWeather] and the
    scheduling loop of [main].

    Conventions.
    - A [std::string] is a [list ascii]; a [size_t] position is a [nat] and
      [std::string::npos] is [None].
    - A [for]/[while] loop that walks the buffer from [pos] is a [Fixpoint]
      over the suffix [skipn pos json], carrying the index where the loop
      needs it; [value += c] becomes a cons.
    - [int] and [time_t] are [Z] with two's complement wrap-around written
      out ([wrap_int], 32 bits; [wrap_time], 64 bits).
    - [atof]/[atol] results are kept symbolic ([cfloat], [ctime]). *)

From Stdlib Require Import Ascii String List ZArith Lia Bool Arith.
Import ListNotations.

Local Open Scope list_scope.

(** ** Characters and text *)

Definition text := list ascii.

Definition str (s : string) : text := list_ascii_of_string s.

Definition ch_dquote : ascii := ascii_of_nat 34.
Definition ch_backslash : ascii := ascii_of_nat 92.
Definition ch_newline : ascii := ascii_of_nat 10.
Definition ch_tab : ascii := ascii_of_nat 9.
Definition ch_space : ascii := ascii_of_nat 32.
Definition ch_comma : ascii := ascii_of_nat 44.
Definition ch_colon : ascii := ascii_of_nat 58.
Definition ch_dot : ascii := ascii_of_nat 46.
Definition ch_lbrace : ascii := ascii_of_nat 123.
Definition ch_rbrace : ascii := ascii_of_nat 125.
Definition ch_lbracket : ascii := ascii_of_nat 91.
Definition ch_rbracket : ascii := ascii_of_nat 93.
Definition ch_n : ascii := ascii_of_nat 110.
Definition ch_t : ascii := ascii_of_nat 116.

(** Test buffers are written with an apostrophe where the JSON text has a
    double quote: [json_text "{'a':1}"] is the text [{"a":1}]. *)
Definition json_text (s : string) : text :=
  map (fun c => if Ascii.eqb c (ascii_of_nat 39) then ch_dquote else c) (str s).

(** ** [std::string] operations used by the source *)

(** [s.substr(pos, n)], for [pos <= s.length()]. *)
Definition substr (s : text) (pos n : nat) : text := firstn n (skipn pos s).

(** [s.substr(pos)]. *)
Definition substr_from (s : text) (pos : nat) : text := skipn pos s.

Fixpoint starts_with (pat s : text) : bool :=
  match pat, s with
  | [], _ => true
  | _ :: _, [] => false
  | p :: pat', c :: s' => Ascii.eqb p c && starts_with pat' s'
  end.

(** The search of [find]: [l] is the suffix of the buffer that starts at
    index [i]. *)
Fixpoint find_in (pat l : text) (i : nat) : option nat :=
  if starts_with pat l then Some i
  else match l with
       | [] => None
       | _ :: l' => find_in pat l' (S i)
       end.

(** [s.find(pat, pos)]: the least index [>= pos] where [pat] occurs. *)
Definition find (pat s : text) (pos : nat) : option nat :=
  if pos <=? length s then find_in pat (skipn pos s) pos else None.

(** [s.find(c)] for a single character. *)
Definition find_char (c : ascii) (s : text) : option nat := find [c] s 0.

(** ** Machine integers *)

Definition wrap_int (z : Z) : Z := ((z + 2 ^ 31) mod 2 ^ 32 - 2 ^ 31)%Z.
Definition wrap_time (z : Z) : Z := ((z + 2 ^ 63) mod 2 ^ 64 - 2 ^ 63)%Z.
Definition int_max : Z := (2 ^ 31 - 1)%Z.
Definition time_min : Z := (- 2 ^ 63)%Z.
Definition time_max : Z := (2 ^ 63 - 1)%Z.

(** ** extractJsonValue *)

(** The key between two double quotes ([search_key], [parent_search]). *)
Definition quoted (key : text) : text := ch_dquote :: key ++ [ch_dquote].

(** The brace matching loop (lines 107-118): [l] is [remaining_json] from
    index [i] on and [brace_count] the counter on entry to iteration [i].
    [Some end_pos] when the [break] is reached. *)
Fixpoint brace_loop (l : text) (i : nat) (brace_count : Z) : option nat :=
  match l with
  | [] => None
  | c :: l' =>
      let brace_count :=
        if Ascii.eqb c ch_lbrace then wrap_int (brace_count + 1) else brace_count in
      if Ascii.eqb c ch_rbrace then
        let brace_count := wrap_int (brace_count - 1) in
        if (brace_count =? 0)%Z then Some (i + 1)
        else brace_loop l' (S i) brace_count
      else brace_loop l' (S i) brace_count
  end.

(** [end_pos] after the loop: initialised to [pos], overwritten at the
    [break]. *)
Definition matching_end (json : text) (pos : nat) : nat :=
  match brace_loop (skipn pos json) pos 0 with
  | Some end_pos => end_pos
  | None => pos
  end.

(** The whitespace loop of line 133. *)
Fixpoint skip_blank (l : text) (pos : nat) : nat :=
  match l with
  | c :: l' =>
      if Ascii.eqb c ch_space || Ascii.eqb c ch_tab then skip_blank l' (S pos)
      else pos
  | [] => pos
  end.

(** The string loop of lines 141-151: [l] is the buffer after the opening
    quote. *)
Fixpoint read_string (l : text) : text :=
  match l with
  | [] => []
  | c :: l' =>
      if Ascii.eqb c ch_dquote then []
      else if Ascii.eqb c ch_backslash then
        match l' with
        | x :: l'' =>
            (if Ascii.eqb x ch_n then ch_newline
             else if Ascii.eqb x ch_t then ch_tab
             else x) :: read_string l''
        | [] => c :: read_string l'
        end
      else c :: read_string l'
  end.

Definition is_delimiter (c : ascii) : bool :=
  Ascii.eqb c ch_comma || Ascii.eqb c ch_rbrace || Ascii.eqb c ch_rbracket
  || Ascii.eqb c ch_space || Ascii.eqb c ch_newline.

(** The scalar loop of lines 154-158. *)
Fixpoint read_scalar (l : text) : text :=
  match l with
  | [] => []
  | c :: l' => if is_delimiter c then [] else c :: read_scalar l'
  end.

(** Lines 123-160: the lookup of a key without a dot. *)
Definition extract_simple (remaining_json key : text) : text :=
  let search_key := quoted key in
  match find search_key remaining_json 0 with
  | None => []
  | Some pos =>
      match find [ch_colon] remaining_json pos with
      | None => []
      | Some pos =>
          let pos := S pos in
          let pos := skip_blank (skipn pos remaining_json) pos in
          match skipn pos remaining_json with
          | [] => []
          | c :: rest =>
              if Ascii.eqb c ch_dquote then read_string rest
              else read_scalar (c :: rest)
          end
      end
  end.

(** Lines 87-161.  The recursive call is on [child_key], a proper suffix of
    [key]; [fuel] bounds the depth of the recursion. *)
Fixpoint extractJsonValue_fuel (fuel : nat) (json key : text) : text :=
  let remaining_json := json in
  match find_char ch_dot key with
  | Some dot_pos =>
      match fuel with
      | O => []
      | S fuel' =>
          let parent_key := substr key 0 dot_pos in
          let child_key := substr_from key (dot_pos + 1) in
          let parent_search := quoted parent_key in
          match find parent_search remaining_json 0 with
          | None => []
          | Some pos =>
              match find [ch_lbrace] remaining_json pos with
              | None => []
              | Some pos =>
                  let end_pos := matching_end remaining_json pos in
                  let remaining_json := substr remaining_json pos (end_pos - pos) in
                  extractJsonValue_fuel fuel' remaining_json child_key
              end
          end
      end
  | None => extract_simple remaining_json key
  end.

Definition extractJsonValue (json key : text) : text :=
  extractJsonValue_fuel (length key) json key.

(** ** extractJsonValue over a store of string objects

    The same function with its [std::string] objects made explicit: the
    caller's buffer is an object of the store, passed by reference, and
    [remaining_json] is a local object, built as a copy at entry, assigned
    at line 119, passed by reference to the recursive call and destroyed at
    return.  Keys are only read and stay values. *)
Module Store.

(** The live string objects; a reference is an index.  Locals are
    created at the end and destroyed from the end. *)
Definition store := list text.
Definition ref := nat.

Definition M (A : Type) : Type := store -> A * store.

Definition ret {A} (a : A) : M A := fun st => (a, st).

Definition bind {A B} (m : M A) (k : A -> M B) : M B :=
  fun st => let '(a, st') := m st in k a st'.

Notation "x <- m ;; k" := (bind m (fun x => k))
  (at level 61, m at next level, right associativity).
Notation "m ;;; k" := (bind m (fun _ => k))
  (at level 61, right associativity).

(** Reading through a reference. *)
Definition load (r : ref) : M text := fun st => (nth r st [], st).

(** Construction of a local [std::string] from a value. *)
Definition construct (s : text) : M ref := fun st => (length st, st ++ [s]).

Fixpoint update (r : ref) (s : text) (st : store) : store :=
  match st, r with
  | [], _ => []
  | _ :: st', O => s :: st'
  | x :: st', S r' => x :: update r' s st'
  end.

(** [*r = s] *)
Definition assign (r : ref) (s : text) : M unit := fun st => (tt, update r s st).

(** The destructor of the innermost local at scope exit. *)
Definition destroy : M unit := fun st => (tt, removelast st).

Fixpoint extractJsonValue_fuel (fuel : nat) (json : ref) (key : text) : M text :=
  j <- load json ;;
  remaining_json <- construct j ;;
  value <-
    match find_char ch_dot key with
    | Some dot_pos =>
        match fuel with
        | O => ret []
        | S fuel' =>
            let parent_key := substr key 0 dot_pos in
            let child_key := substr_from key (dot_pos + 1) in
            let parent_search := quoted parent_key in
            rj <- load remaining_json ;;
            match find parent_search rj 0 with
            | None => ret []
            | Some pos =>
                match find [ch_lbrace] rj pos with
                | None => ret []
                | Some pos =>
                    let end_pos := matching_end rj pos in
                    assign remaining_json (substr rj pos (end_pos - pos)) ;;;
                    extractJsonValue_fuel fuel' remaining_json child_key
                end
            end
        end
    | None =>
        rj <- load remaining_json ;;
        ret (extract_simple rj key)
    end ;;
  destroy ;;;
  ret value.

Definition extractJsonValue (json : ref) (key : text) : M text :=
  extractJsonValue_fuel (length key) json key.

End Store.

(** ** WeatherData and fetchWeather *)

(** A [float] field holds the constructor's literal or [atof] of a text;
    the conversion itself is not interpreted. *)
Inductive cfloat : Type :=
| FloatOfInt (z : Z)
| FloatAtof (s : text).

(** The [time_t] field [timestamp]: the literal or [(time_t)atol(...)]. *)
Inductive ctime : Type :=
| TimeOfInt (z : Z)
| TimeAtol (s : text).

Record WeatherData : Type := mkWeatherData {
  temp : cfloat;
  feels_like : cfloat;
  humidity : cfloat;
  wind_speed : cfloat;
  condition_main : text;
  condition_description : text;
  timestamp : ctime;
  valid : bool
}.

(** The constructor [WeatherData()] of lines 74-76. *)
Definition WeatherData_ctor : WeatherData :=
  {| temp := FloatOfInt 0; feels_like := FloatOfInt 0; humidity := FloatOfInt 0;
     wind_speed := FloatOfInt 0; condition_main := str "Unknown";
     condition_description := []; timestamp := TimeOfInt 0; valid := false |}.

(** [s.empty()] *)
Definition empty (s : text) : bool :=
  match s with [] => true | _ :: _ => false end.

(** Lines 209-228: the text of the first object of the [weather] array.  The
    loop of lines 216-227 is the loop of lines 107-118 again. *)
Definition first_weather_object (response_data : text) : option text :=
  match find (quoted (str "weather")) response_data 0 with
  | None => None
  | Some weather_start =>
      match find [ch_lbracket] response_data weather_start with
      | None => None
      | Some array_start =>
          match find [ch_lbrace] response_data array_start with
          | None => None
          | Some obj_start =>
              let obj_end := matching_end response_data obj_start in
              Some (substr response_data obj_start (obj_end - obj_start))
          end
      end
  end.

(** Lines 203-249: what [fetchWeather] makes of a 200 response. *)
Definition parse_response (response_data : text) : WeatherData :=
  let weather := WeatherData_ctor in
  let temp_str := extractJsonValue response_data (str "main.temp") in
  let feels_str := extractJsonValue response_data (str "main.feels_like") in
  let humidity_str := extractJsonValue response_data (str "main.humidity") in
  let '(main_, description_) :=
    match first_weather_object response_data with
    | Some weather_obj =>
        (extractJsonValue weather_obj (str "main"),
         extractJsonValue weather_obj (str "description"))
    | None => (condition_main weather, condition_description weather)
    end in
  let wind_str := extractJsonValue response_data (str "wind.speed") in
  let dt_str := extractJsonValue response_data (str "dt") in
  {| temp := if negb (empty temp_str) then FloatAtof temp_str else temp weather;
     feels_like := if negb (empty feels_str) then FloatAtof feels_str
                   else feels_like weather;
     humidity := if negb (empty humidity_str) then FloatAtof humidity_str
                 else humidity weather;
     wind_speed := if negb (empty wind_str) then FloatAtof wind_str
                   else wind_speed weather;
     condition_main := main_;
     condition_description := description_;
     timestamp := if negb (empty dt_str) then TimeAtol dt_str else timestamp weather;
     valid := true |}.

(** What the transfer did, as [fetchWeather] observes it. *)
Inductive CurlOutcome : Type :=
| CurlInitFailed                                   (* curl_easy_init() == NULL *)
| CurlPerformFailed                                (* res != CURLE_OK *)
| CurlPerformed (response_code : Z) (response_data : text).

(** Lines 164-250. *)
Definition fetchWeather (outcome : CurlOutcome) : WeatherData :=
  let weather := WeatherData_ctor in
  match outcome with
  | CurlInitFailed => weather
  | CurlPerformFailed => weather
  | CurlPerformed response_code response_data =>
      if negb (response_code =? 200)%Z then weather
      else parse_response response_data
  end.

(** ** The loop of [main] *)

Record Config : Type := mkConfig {
  format_lines : list text;      (* -d, default "%H:%M" *)
  weather_refresh : Z;           (* int, --weather-refresh, default 600 *)
  units : text                   (* --units, default "metric" *)
}.

(** The variables that live across iterations (lines 454-460). *)
Record LoopState : Type := mkLoopState {
  next_time_sec : Z;             (* next_time.tv_sec; tv_nsec stays 0 *)
  last_weather_fetch : Z;
  current_weather : WeatherData
}.

(** What one pass through the loop body does to the outside, in program
    order.  The outline-font calls repeat the same text and are left out. *)
Inductive Event : Type :=
| EvFill
| EvFetchWeather (result : WeatherData)
| EvDrawClock (line : text) (tv_sec : Z)
| EvDrawWeather (t : cfloat) (temp_unit : ascii) (condition : text)
| EvDrawStatus (status : text)
| EvWaitUntil (tv_sec : Z)
| EvSwap.

(** What is polled or received from outside during one iteration. *)
Record TickInput : Type := mkTickInput {
  interrupt_received : bool;     (* the flag as read by the loop condition *)
  curl_outcome : CurlOutcome     (* the transfer, should this tick fetch *)
}.

(** State on entry to the loop: [next_time.tv_sec = time(NULL)],
    [last_weather_fetch = 0], [current_weather] default-constructed. *)
Definition init_state (now : Z) : LoopState :=
  {| next_time_sec := now; last_weather_fetch := 0;
     current_weather := WeatherData_ctor |}.

(** The condition of line 470. *)
Definition refresh_due (cfg : Config) (st : LoopState) : bool :=
  (weather_refresh cfg <=? wrap_time (next_time_sec st - last_weather_fetch st))%Z.

(** Lines 493-522: the weather line. *)
Definition weather_line (cfg : Config) (w : WeatherData) : Event :=
  if valid w then
    let temp_unit :=
      if list_eq_dec ascii_dec (units cfg) (str "imperial")
      then ascii_of_nat 70 else ascii_of_nat 67 in
    EvDrawWeather (temp w) temp_unit (condition_main w)
  else EvDrawStatus (str "Loading...").

(** Lines 466-530: one pass through the loop body. *)
Definition iteration (cfg : Config) (outcome : CurlOutcome) (st : LoopState)
  : list Event * LoopState :=
  let next := next_time_sec st in
  let due := refresh_due cfg st in
  let fetched := fetchWeather outcome in
  let weather := if due then fetched else current_weather st in
  let last := if due then next else last_weather_fetch st in
  ([EvFill]
     ++ (if due then [EvFetchWeather fetched] else [])
     ++ map (fun line => EvDrawClock line next) (format_lines cfg)
     ++ [weather_line cfg weather; EvWaitUntil next; EvSwap],
   {| next_time_sec := wrap_time (next + 1);
      last_weather_fetch := last;
      current_weather := weather |}).

(** Line 465 around it: the log has one entry per executed iteration. *)
Fixpoint main_loop (cfg : Config) (inputs : list TickInput) (st : LoopState)
  : list (list Event) * LoopState :=
  match inputs with
  | [] => ([], st)
  | inp :: inputs' =>
      if interrupt_received inp then ([], st)
      else
        let '(evs, st1) := iteration cfg (curl_outcome inp) st in
        let '(log, st2) := main_loop cfg inputs' st1 in
        (evs :: log, st2)
  end.

(** ** Vocabulary of the statements *)

(** [pat] occurs in [s] at index [i]. *)
Definition occurs_at (pat s : text) (i : nat) : Prop :=
  exists pre post, s = pre ++ pat ++ post /\ length pre = i.

(** The characters the loop of line 133 steps over. *)
Definition is_blank (c : ascii) : Prop := c = ch_space \/ c = ch_tab.

(** A buffer that holds [key], quoted, then [mid], a colon, [ws] and
    [tail]. *)
Definition member_text (pre key mid ws tail : text) : text :=
  pre ++ quoted key ++ mid ++ ch_colon :: ws ++ tail.

(** The content of a string literal, as the spec words it: ordinary
    characters and two-character escapes. *)
Inductive StrItem : Type :=
| Plain (c : ascii)
| Escaped (x : ascii).

Definition item_source (it : StrItem) : text :=
  match it with
  | Plain c => [c]
  | Escaped x => [ch_backslash; x]
  end.

(** The spec's escape table: [\n] and [\t] are the control characters, any
    other [\x] is [x]. *)
Definition item_value (it : StrItem) : ascii :=
  match it with
  | Plain c => c
  | Escaped x =>
      if Ascii.eqb x ch_n then ch_newline
      else if Ascii.eqb x ch_t then ch_tab
      else x
  end.

Definition plain_ok (it : StrItem) : Prop :=
  match it with
  | Plain c => c <> ch_dquote /\ c <> ch_backslash
  | Escaped _ => True
  end.

Definition literal_source (items : list StrItem) : text :=
  flat_map item_source items.

Definition decoded (items : list StrItem) : text := map item_value items.

(** Nesting depth of a text: opening minus closing braces. *)
Fixpoint brace_depth (l : text) : Z :=
  match l with
  | [] => 0
  | c :: l' =>
      ((if Ascii.eqb c ch_lbrace then 1 else 0)
       - (if Ascii.eqb c ch_rbrace then 1 else 0) + brace_depth l')%Z
  end.

(** The deadlines an iteration waits on, and the results of its calls of
    [fetchWeather], read off its events. *)
Definition waits (evs : list Event) : list Z :=
  flat_map (fun e => match e with EvWaitUntil t => [t] | _ => [] end) evs.

Definition fetches (evs : list Event) : list WeatherData :=
  flat_map (fun e => match e with EvFetchWeather r => [r] | _ => [] end) evs.

Definition draws_weather (e : Event) : bool :=
  match e with EvDrawWeather _ _ _ => true | _ => false end.

(** The deadline of an iteration that called [fetchWeather], and of one
    whose call returned a valid record. *)
Definition attempt_time (evs : list Event) : option Z :=
  match fetches evs, waits evs with
  | _ :: _, t :: _ => Some t
  | _, _ => None
  end.

Definition success_time (evs : list Event) : option Z :=
  match fetches evs, waits evs with
  | r :: _, t :: _ => if valid r then Some t else None
  | _, _ => None
  end.

(** The deadline of the latest iteration of [log] with a refresh attempt
    (with a successful refresh), [t0] when there is none. *)
Definition last_attempt (log : list (list Event)) (t0 : Z) : Z :=
  fold_left (fun t evs => match attempt_time evs with Some t' => t' | None => t end)
            log t0.

Definition last_success (log : list (list Event)) (t0 : Z) : Z :=
  fold_left (fun t evs => match success_time evs with Some t' => t' | None => t end)
            log t0.

Definition running (inp : TickInput) : Prop := interrupt_received inp = false.

(** ** The [clock_nanosleep] replacement (lines 30-53) *)

Record timespec : Type := mkTimespec {
  tv_sec : Z;                    (* time_t *)
  tv_nsec : Z                    (* long *)
}.

(** What [gettimeofday] stores: seconds and microseconds, the latter a
    32-bit [suseconds_t] on the platform the replacement is compiled for. *)
Record timeval : Type := mkTimeval {
  now_tv_sec : Z;
  now_tv_usec : Z
}.

Definition TIMER_ABSTIME : Z := 1.

(** How the replacement ends: [return 0] at line 49, or the call of
    [nanosleep] with the given duration, whose result it returns. *)
Inductive SleepCall : Type :=
| ReturnZero
| Nanosleep (duration : timespec).

Definition clock_nanosleep (flags : Z) (now_tv : timeval) (request : timespec)
  : SleepCall :=
  if (flags =? TIMER_ABSTIME)%Z then
    let now_sec := now_tv_sec now_tv in
    let now_nsec := wrap_int (now_tv_usec now_tv * 1000) in
    let diff_sec := wrap_time (tv_sec request - now_sec) in
    let diff_nsec := wrap_time (tv_nsec request - now_nsec) in
    let '(diff_sec, diff_nsec) :=
      if (diff_nsec <? 0)%Z
      then (wrap_time (diff_sec - 1), wrap_time (diff_nsec + 1000000000))
      else (diff_sec, diff_nsec) in
    if (diff_sec <? 0)%Z then ReturnZero
    else Nanosleep {| tv_sec := diff_sec; tv_nsec := diff_nsec |}
  else Nanosleep request.

(** ** loadEnv and the environment check of [main] *)

(** [std::map<std::string, std::string>], as far as lookups see it: an
    assignment shadows the earlier entries of its key. *)
Definition EnvMap : Type := list (text * text).

Fixpoint map_find (key : text) (env_map : EnvMap) : option text :=
  match env_map with
  | [] => None
  | (k, v) :: env_map' =>
      if list_eq_dec ascii_dec key k then Some v else map_find key env_map'
  end.

(** [env_map[key] = value] *)
Definition map_assign (key value : text) (env_map : EnvMap) : EnvMap :=
  (key, value) :: env_map.

(** [env_map[key]] read: an absent key is inserted with the empty string. *)
Definition map_index (key : text) (env_map : EnvMap) : text * EnvMap :=
  match map_find key env_map with
  | Some v => (v, env_map)
  | None => ([], map_assign key [] env_map)
  end.

(** [env_map.count(key)] as a truth value. *)
Definition map_count (key : text) (env_map : EnvMap) : bool :=
  match map_find key env_map with Some _ => true | None => false end.

Definition ch_equals : ascii := ascii_of_nat 61.
Definition ch_hash : ascii := ascii_of_nat 35.

(** Lines 264-266. *)
Definition strip_quotes (value : text) : text :=
  if (2 <=? length value)
     && Ascii.eqb (nth 0 value zero) ch_dquote
     && Ascii.eqb (nth (length value - 1) value zero) ch_dquote
  then substr value 1 (length value - 2)
  else value.

(** Lines 259-268: one line of the file. *)
Definition load_line (line : text) (env_map : EnvMap) : EnvMap :=
  match find_char ch_equals line with
  | Some eq_pos =>
      if negb (Ascii.eqb (nth 0 line zero) ch_hash) then
        let key := substr line 0 eq_pos in
        let value := substr_from line (eq_pos + 1) in
        let value := strip_quotes value in
        map_assign key value env_map
      else env_map
  | None => env_map
  end.

(** Lines 257-269: the lines [std::getline] delivers, in order. *)
Definition load_file (lines : list text) (env_map : EnvMap) : EnvMap :=
  fold_left (fun m line => load_line line m) lines env_map.

(** Lines 273-282, for one variable. *)
Definition override (getenv : text -> option text) (name : text) (env_map : EnvMap)
  : EnvMap :=
  match getenv name with
  | Some value => map_assign name value env_map
  | None => env_map
  end.

(** Lines 253-283.  [env_file] is [None] when [.env] cannot be opened. *)
Definition loadEnv (env_file : option (list text)) (getenv : text -> option text)
    (env_map : EnvMap) : EnvMap :=
  let env_map :=
    match env_file with
    | Some lines => load_file lines env_map
    | None => env_map
    end in
  let env_map := override getenv (str "WEATHER_API_KEY") env_map in
  let env_map := override getenv (str "WEATHER_LAT") env_map in
  let env_map := override getenv (str "WEATHER_LON") env_map in
  override getenv (str "WEATHER_LANG") env_map.

(** Lines 398-411: [main] goes on with these four texts or returns 1. *)
Inductive EnvCheck : Type :=
| MissingEnv
| EnvReady (api_key lat_str lon_str lang : text).

Definition check_env (env_file : option (list text)) (getenv : text -> option text)
  : EnvCheck :=
  let env_map := loadEnv env_file getenv [] in
  let '(api_key, env_map) := map_index (str "WEATHER_API_KEY") env_map in
  let '(lat_str, env_map) := map_index (str "WEATHER_LAT") env_map in
  let '(lon_str, env_map) := map_index (str "WEATHER_LON") env_map in
  let lang :=
    if map_count (str "WEATHER_LANG") env_map
    then fst (map_index (str "WEATHER_LANG") env_map)
    else str "en" in
  if empty api_key || empty lat_str || empty lon_str then MissingEnv
  else EnvReady api_key lat_str lon_str lang.

(** ** Vocabulary of the further statements *)

(** The part of a key before its first dot; the whole key without one. *)
Definition first_segment (key : text) : text :=
  match find_char ch_dot key with
  | Some dot_pos => substr key 0 dot_pos
  | None => key
  end.

(** Braces inside [body] are matched among themselves: no prefix closes
    more than it opens, and the whole opens as many as it closes. *)
Definition balanced (body : text) : Prop :=
  (forall n, n <= length body -> (0 <= brace_depth (firstn n body))%Z)
  /\ brace_depth body = 0%Z.

(** Two characters the brace loop cannot tell apart. *)
Definition same_brace (a b : ascii) : Prop :=
  Ascii.eqb a ch_lbrace = Ascii.eqb b ch_lbrace
  /\ Ascii.eqb a ch_rbrace = Ascii.eqb b ch_rbrace.

(** The result of the latest call of [fetchWeather] in [log], [w0] when
    there is none. *)
Definition last_fetched (log : list (list Event)) (w0 : WeatherData) : WeatherData :=
  fold_left (fun w evs => match fetches evs with r :: _ => r | [] => w end) log w0.

Definition has_fetch (evs : list Event) : bool :=
  match fetches evs with [] => false | _ :: _ => true end.

(** The seconds the clock lines of an iteration are formatted from. *)
Definition clock_times (evs : list Event) : list Z :=
  flat_map (fun e => match e with EvDrawClock _ t => [t] | _ => [] end) evs.

(** The environment variables [loadEnv] reads. *)
Definition env_names : list text :=
  [str "WEATHER_API_KEY"; str "WEATHER_LAT"; str "WEATHER_LON"; str "WEATHER_LANG"].

(** A line of the file that [load_line] passes over. *)
Definition ignored_line (line : text) : Prop :=
  ~ In ch_equals line \/ exists rest, line = ch_hash :: rest.

(** ** Lemmas on the string operations *)

Lemma starts_with_app (pat post : text) : starts_with pat (pat ++ post) = true.
Proof.
  induction pat as [|p pat IH]; simpl; [reflexivity|].
  now rewrite Ascii.eqb_refl.
Qed.

Lemma starts_with_inv (pat s : text) :
  starts_with pat s = true -> exists post, s = pat ++ post.
Proof.
  revert s; induction pat as [|p pat IH]; intros s H.
  - now exists s.
  - destruct s as [|c s]; simpl in H; [discriminate|].
    apply andb_true_iff in H as [Hc Hs].
    apply Ascii.eqb_eq in Hc; subst c.
    destruct (IH _ Hs) as [post ->]. now exists post.
Qed.

Lemma skipn_app_length {A} (a b : list A) : skipn (length a) (a ++ b) = b.
Proof. induction a; simpl; auto. Qed.

Lemma occurs_at_starts_with (pat s : text) (i : nat) :
  occurs_at pat s i <-> i <= length s /\ starts_with pat (skipn i s) = true.
Proof.
  split.
  - intros (pre & post & -> & <-). split.
    + rewrite length_app. lia.
    + rewrite skipn_app_length. apply starts_with_app.
  - intros [Hi H]. apply starts_with_inv in H as [post Hpost].
    exists (firstn i s), post. split.
    + rewrite <- Hpost. symmetry. apply firstn_skipn.
    + apply firstn_length_le. exact Hi.
Qed.

Lemma find_in_cons (pat : text) (c : ascii) (l : text) (i : nat) :
  find_in pat (c :: l) i =
  if starts_with pat (c :: l) then Some i else find_in pat l (S i).
Proof. reflexivity. Qed.

Lemma find_in_here (pat l : text) (i : nat) :
  starts_with pat l = true -> find_in pat l i = Some i.
Proof. intros H. destruct l; simpl find_in; now rewrite H. Qed.

Lemma find_in_skip (pat pre rest : text) (i : nat) :
  (forall j, j < length pre -> starts_with pat (skipn j (pre ++ rest)) = false) ->
  find_in pat (pre ++ rest) i = find_in pat rest (i + length pre).
Proof.
  revert i; induction pre as [|c pre IH]; intros i H.
  - simpl. now rewrite Nat.add_0_r.
  - change ((c :: pre) ++ rest) with (c :: (pre ++ rest)).
    rewrite find_in_cons.
    pose proof (H 0 ltac:(simpl; lia)) as H0. simpl in H0.
    simpl starts_with. rewrite H0.
    rewrite IH.
    + f_equal. simpl. lia.
    + intros j Hj. apply (H (S j)). simpl. lia.
Qed.

Lemma find_in_lt (pat l : text) (i k : nat) :
  pat <> [] -> find_in pat l i = Some k -> k < i + length l.
Proof.
  intros Hpat. revert i; induction l as [|c l IH]; intros i; simpl.
  - destruct pat; [congruence|]. simpl. discriminate.
  - destruct (starts_with pat (c :: l)); intros H.
    + inversion H; lia.
    + apply IH in H. lia.
Qed.

Lemma find_in_least (pat l : text) :
  forall i k, find_in pat l i = Some k ->
  i <= k /\ k - i <= length l
  /\ starts_with pat (skipn (k - i) l) = true
  /\ forall j, j < k - i -> starts_with pat (skipn j l) = false.
Proof.
  induction l as [|c l IH]; intros i k H.
  - simpl in H. destruct (starts_with pat []) eqn:E; [|discriminate].
    injection H as <-. rewrite Nat.sub_diag. simpl.
    repeat split; auto; try lia.
  - rewrite find_in_cons in H.
    destruct (starts_with pat (c :: l)) eqn:E.
    + injection H as <-. rewrite Nat.sub_diag. simpl skipn.
      repeat split; auto; try lia.
    + apply IH in H as (Hle & Hlen & Hat & Hmin).
      replace (k - i) with (S (k - S i)) by lia.
      simpl. repeat split; auto; try lia.
      intros [|j] Hj; simpl; [exact E|]. apply Hmin. lia.
Qed.

(** [find] returns the least index from [pos] on where [pat] occurs. *)
Lemma find_least (pat s : text) (pos k : nat) :
  find pat s pos = Some k ->
  pos <= k /\ occurs_at pat s k
  /\ forall j, pos <= j < k -> ~ occurs_at pat s j.
Proof.
  unfold find. destruct (pos <=? length s) eqn:Hpos; [|discriminate].
  apply Nat.leb_le in Hpos. intros H.
  apply find_in_least in H as (Hle & Hlen & Hat & Hmin).
  rewrite length_skipn in Hlen.
  rewrite skipn_skipn in Hat. replace (k - pos + pos) with k in Hat by lia.
  repeat split; auto.
  - apply occurs_at_starts_with. split; [lia | exact Hat].
  - intros j Hj Hocc. apply occurs_at_starts_with in Hocc as [_ Hocc].
    specialize (Hmin (j - pos) ltac:(lia)).
    rewrite skipn_skipn in Hmin. replace (j - pos + pos) with j in Hmin by lia.
    congruence.
Qed.

(** The first occurrence is the one [find] returns. *)
Lemma find_first_occurrence (pat pre post : text) :
  (forall j, j < length pre -> ~ occurs_at pat (pre ++ pat ++ post) j) ->
  find pat (pre ++ pat ++ post) 0 = Some (length pre).
Proof.
  intros H. unfold find. simpl.
  rewrite find_in_skip.
  - simpl. apply find_in_here, starts_with_app.
  - intros j Hj.
    destruct (starts_with pat (skipn j (pre ++ pat ++ post))) eqn:E; [|reflexivity].
    exfalso. apply (H j Hj). apply occurs_at_starts_with. split; [|exact E].
    rewrite length_app. lia.
Qed.

Lemma find_in_char (c : ascii) (b r : text) (i : nat) :
  ~ In c b -> find_in [c] (b ++ c :: r) i = Some (i + length b).
Proof.
  revert i; induction b as [|x b IH]; intros i Hb.
  - simpl. rewrite Ascii.eqb_refl. simpl. f_equal. lia.
  - change ((x :: b) ++ c :: r) with (x :: (b ++ c :: r)).
    rewrite find_in_cons.
    assert (Hx : Ascii.eqb c x = false).
    { apply Ascii.eqb_neq. intros ->. apply Hb. now left. }
    simpl starts_with. rewrite Hx. simpl.
    rewrite IH by (intros Hin; apply Hb; now right).
    f_equal. simpl. lia.
Qed.

Lemma find_char_after (c : ascii) (a b r : text) :
  ~ In c b -> find [c] (a ++ b ++ c :: r) (length a) = Some (length a + length b).
Proof.
  intros Hb. unfold find.
  replace (length a <=? length (a ++ b ++ c :: r)) with true
    by (symmetry; apply Nat.leb_le; rewrite length_app; lia).
  rewrite skipn_app_length. now apply find_in_char.
Qed.

Lemma find_in_absent (c : ascii) (s : text) (i : nat) :
  ~ In c s -> find_in [c] s i = None.
Proof.
  revert i; induction s as [|x s IH]; intros i Hs; [reflexivity|].
  rewrite find_in_cons. simpl starts_with.
  assert (Hx : Ascii.eqb c x = false).
  { apply Ascii.eqb_neq. intros ->. apply Hs. now left. }
  rewrite Hx. simpl. apply IH. intros Hin. apply Hs. now right.
Qed.

Lemma find_char_absent (c : ascii) (s : text) : ~ In c s -> find_char c s = None.
Proof. intros H. unfold find_char, find. simpl. now apply find_in_absent. Qed.

Lemma skip_blank_app (ws tail : text) (pos : nat) :
  Forall is_blank ws ->
  (forall c l, tail = c :: l -> ~ is_blank c) ->
  skip_blank (ws ++ tail) pos = pos + length ws.
Proof.
  intros Hws Htail. revert pos.
  induction Hws as [|c ws Hc _ IH]; intros pos.
  - simpl. destruct tail as [|c l]; simpl; [lia|].
    destruct (Ascii.eqb c ch_space) eqn:E1.
    { apply Ascii.eqb_eq in E1. exfalso. apply (Htail c l eq_refl). now left. }
    destruct (Ascii.eqb c ch_tab) eqn:E2.
    { apply Ascii.eqb_eq in E2. exfalso. apply (Htail c l eq_refl). now right. }
    simpl. lia.
  - simpl. replace (Ascii.eqb c ch_space || Ascii.eqb c ch_tab) with true.
    + rewrite IH. lia.
    + symmetry. apply orb_true_iff.
      destruct Hc as [-> | ->]; [left | right]; apply Ascii.eqb_refl.
Qed.

(** ** Tactics for the concrete instances *)

Ltac not_in_text :=
  let H := fresh in
  intros H; vm_compute in H;
  repeat match goal with
         | H : _ \/ _ |- _ => destruct H as [H | H]
         end; try discriminate; try contradiction.

Ltac not_before_one :=
  let j := fresh "j" in
  let Hj := fresh in
  let H := fresh in
  intros j Hj; simpl in Hj;
  destruct j as [|j]; [|exfalso; lia];
  intros H; apply occurs_at_starts_with in H; destruct H as [_ H];
  vm_compute in H; discriminate.

(** ** Lemmas on the loops of [extractJsonValue] *)

Lemma read_string_literal (items : list StrItem) (post : text) :
  Forall plain_ok items ->
  read_string (literal_source items ++ ch_dquote :: post) = decoded items.
Proof.
  induction 1 as [|it items Hit _ IH]; [reflexivity|].
  destruct it as [c | x]; simpl in *.
  - destruct Hit as [Hq Hb].
    apply Ascii.eqb_neq in Hq, Hb. rewrite Hq, Hb.
    f_equal. exact IH.
  - f_equal. exact IH.
Qed.

Lemma decoded_no_backslash (items : list StrItem) :
  Forall plain_ok items ->
  ~ In (Escaped ch_backslash) items ->
  ~ In ch_backslash (decoded items).
Proof.
  intros Hok Hesc Hin. unfold decoded in Hin.
  apply in_map_iff in Hin as (it & Hv & Hit).
  rewrite Forall_forall in Hok. specialize (Hok it Hit).
  destruct it as [c | x]; simpl in *.
  - now destruct Hok.
  - destruct (Ascii.eqb x ch_n); [discriminate|].
    destruct (Ascii.eqb x ch_t); [discriminate|].
    subst x. contradiction.
Qed.

(** The scalar loop returns the longest prefix free of delimiters. *)
Lemma read_scalar_prefix (l : text) :
  exists rest,
    l = read_scalar l ++ rest
    /\ Forall (fun c => is_delimiter c = false) (read_scalar l)
    /\ (rest = [] \/ exists d rest', rest = d :: rest' /\ is_delimiter d = true).
Proof.
  induction l as [|c l (rest & Hl & Hnd & Hrest)].
  - exists []. simpl. auto.
  - simpl. destruct (is_delimiter c) eqn:E.
    + exists (c :: l). simpl. repeat split; eauto.
    + exists rest. simpl. repeat split; auto. now f_equal.
Qed.

Lemma read_scalar_token (tok rest : text) :
  Forall (fun c => is_delimiter c = false) tok ->
  (rest = [] \/ exists d rest', rest = d :: rest' /\ is_delimiter d = true) ->
  read_scalar (tok ++ rest) = tok.
Proof.
  intros Htok Hrest. induction Htok as [|c tok Hc _ IH]; simpl.
  - destruct Hrest as [-> | (d & rest' & -> & Hd)]; simpl; [reflexivity|].
    now rewrite Hd.
  - rewrite Hc. now f_equal.
Qed.

Lemma skipn_after {A} (a b : list A) (c : A) (r : list A) :
  skipn (S (length a + length b)) (a ++ b ++ c :: r) = r.
Proof.
  rewrite (app_assoc a b (c :: r)).
  change (c :: r) with ([c] ++ r). rewrite app_assoc.
  replace (S (length a + length b)) with (length ((a ++ b) ++ [c]))
    by (rewrite !length_app; simpl; lia).
  apply skipn_app_length.
Qed.

(** Where the lookup of lines 123-135 arrives. *)
Lemma extract_simple_locate (pre key mid ws tail : text) :
  (forall j, j < length pre ->
             ~ occurs_at (quoted key) (member_text pre key mid ws tail) j) ->
  ~ In ch_colon (key ++ mid) ->
  Forall is_blank ws ->
  (forall c l, tail = c :: l -> ~ is_blank c) ->
  extract_simple (member_text pre key mid ws tail) key =
  match tail with
  | [] => []
  | c :: rest =>
      if Ascii.eqb c ch_dquote then read_string rest else read_scalar (c :: rest)
  end.
Proof.
  intros Hfirst Hcolon Hws Htail.
  unfold extract_simple, member_text in *.
  rewrite find_first_occurrence by exact Hfirst.
  replace (pre ++ quoted key ++ mid ++ ch_colon :: ws ++ tail)
    with (pre ++ (quoted key ++ mid) ++ ch_colon :: ws ++ tail)
    by now rewrite <- app_assoc.
  rewrite find_char_after.
  2:{ unfold quoted. simpl. intros [H | H]; [discriminate|].
      rewrite <- app_assoc in H. apply in_app_or in H as [H | H].
      - apply Hcolon, in_or_app. now left.
      - simpl in H. destruct H as [H | H]; [discriminate|].
        apply Hcolon, in_or_app. now right. }
  assert (Hskip : skipn (S (length pre + length (quoted key ++ mid)))
                    (pre ++ (quoted key ++ mid) ++ ch_colon :: ws ++ tail)
                  = ws ++ tail) by apply skipn_after.
  cbv zeta. rewrite Hskip. rewrite skip_blank_app by assumption.
  replace (skipn (S (length pre + length (quoted key ++ mid)) + length ws)
             (pre ++ (quoted key ++ mid) ++ ch_colon :: ws ++ tail))
    with tail; [reflexivity|].
  rewrite Nat.add_comm, <- skipn_skipn, Hskip.
  symmetry. apply skipn_app_length.
Qed.

(** ** The recursion of [extractJsonValue] *)

Lemma extractJsonValue_fuel_simple (fuel : nat) (json key : text) :
  find_char ch_dot key = None ->
  extractJsonValue_fuel fuel json key = extract_simple json key.
Proof. intros H. destruct fuel; simpl; now rewrite H. Qed.

Lemma find_char_bound (c : ascii) (s : text) (k : nat) :
  find_char c s = Some k -> k < length s.
Proof.
  unfold find_char, find. simpl. intros H.
  apply find_in_lt in H; [lia | discriminate].
Qed.

(** Any two amounts of fuel from [length key] on give the same result. *)
Lemma extractJsonValue_fuel_stable (fuel1 : nat) :
  forall fuel2 json key, length key <= fuel1 -> length key <= fuel2 ->
  extractJsonValue_fuel fuel1 json key = extractJsonValue_fuel fuel2 json key.
Proof.
  induction fuel1 as [|fuel1 IH]; intros fuel2 json key H1 H2.
  - destruct (find_char ch_dot key) as [dot_pos|] eqn:Hdot.
    + apply find_char_bound in Hdot. lia.
    + now rewrite !extractJsonValue_fuel_simple.
  - destruct (find_char ch_dot key) as [dot_pos|] eqn:Hdot.
    2:{ now rewrite !extractJsonValue_fuel_simple. }
    pose proof (find_char_bound _ _ _ Hdot) as Hlt.
    destruct fuel2 as [|fuel2]; [lia|].
    simpl. rewrite Hdot.
    destruct (find _ json 0) as [pos|]; [|reflexivity].
    destruct (find _ json pos) as [pos'|]; [|reflexivity].
    apply IH; unfold substr_from; rewrite length_skipn; lia.
Qed.

Lemma extractJsonValue_fuel_enough (fuel : nat) (json key : text) :
  length key <= fuel ->
  extractJsonValue_fuel fuel json key = extractJsonValue json key.
Proof. intros H. now apply extractJsonValue_fuel_stable. Qed.

(** [extractJsonValue] satisfies the equation the source is written as. *)
Lemma extractJsonValue_unfold (json key : text) :
  extractJsonValue json key =
  match find_char ch_dot key with
  | Some dot_pos =>
      match find (quoted (substr key 0 dot_pos)) json 0 with
      | None => []
      | Some pos =>
          match find [ch_lbrace] json pos with
          | None => []
          | Some pos =>
              extractJsonValue
                (substr json pos (matching_end json pos - pos))
                (substr_from key (dot_pos + 1))
          end
      end
  | None => extract_simple json key
  end.
Proof.
  destruct (find_char ch_dot key) as [dot_pos|] eqn:Hdot.
  2:{ unfold extractJsonValue. now apply extractJsonValue_fuel_simple. }
  pose proof (find_char_bound _ _ _ Hdot) as Hlt.
  unfold extractJsonValue at 1.
  destruct (length key) as [|n] eqn:Hn; [lia|].
  simpl. rewrite Hdot.
  destruct (find _ json 0) as [pos|]; [|reflexivity].
  destruct (find _ json pos) as [pos'|]; [|reflexivity].
  apply extractJsonValue_fuel_enough.
  unfold substr_from. rewrite length_skipn. lia.
Qed.

Lemma extractJsonValue_nil (key : text) : extractJsonValue [] key = [].
Proof.
  rewrite extractJsonValue_unfold.
  destruct (find_char ch_dot key); [|unfold extract_simple];
    unfold find, quoted; simpl; reflexivity.
Qed.

Lemma wrap_int_small (z : Z) :
  (- 2 ^ 31 <= z <= int_max)%Z -> wrap_int z = z.
Proof.
  unfold wrap_int, int_max. intros H.
  rewrite Z.mod_small; lia.
Qed.

(** A counter that never comes back to zero never reaches the [break]. *)
Lemma brace_loop_open (l : text) :
  forall (i : nat) (c : Z),
  (- 2 ^ 31 <= c - Z.of_nat (length l))%Z ->
  (c + Z.of_nat (length l) <= int_max)%Z ->
  (forall n, 0 < n <= length l -> (c + brace_depth (firstn n l))%Z <> 0%Z) ->
  brace_loop l i c = None.
Proof.
  induction l as [|x l IH]; intros i c Hlo Hhi Hopen; [reflexivity|].
  simpl length in Hlo, Hhi.
  assert (Hstep : forall n, 0 < n <= length l ->
            (c + brace_depth [x] + brace_depth (firstn n l))%Z <> 0%Z).
  { intros n Hn. specialize (Hopen (S n) ltac:(simpl; lia)).
    simpl in Hopen |- *. lia. }
  pose proof (Hopen 1 ltac:(simpl; lia)) as H1.
  cbn [brace_loop]. simpl in H1, Hstep.
  destruct (Ascii.eqb x ch_lbrace) eqn:El; destruct (Ascii.eqb x ch_rbrace) eqn:Er.
  - apply Ascii.eqb_eq in El, Er. subst x. discriminate.
  - rewrite wrap_int_small by lia.
    apply IH; try lia.
    intros n Hn. specialize (Hstep n Hn). lia.
  - rewrite wrap_int_small by lia.
    replace (c - 1 =? 0)%Z with false by (symmetry; apply Z.eqb_neq; lia).
    apply IH; try lia.
    intros n Hn. specialize (Hstep n Hn). lia.
  - apply IH; try lia.
    intros n Hn. specialize (Hstep n Hn). lia.
Qed.

Lemma brace_loop_close (body : text) :
  forall post i c,
  (1 <= c)%Z ->
  (c + Z.of_nat (length body) + 1 <= int_max)%Z ->
  (forall n, n <= length body -> (1 <= c + brace_depth (firstn n body))%Z) ->
  (c + brace_depth body = 1)%Z ->
  brace_loop (body ++ ch_rbrace :: post) i c = Some (i + length body + 1).
Proof.
  induction body as [|x body IH]; intros post i c Hc Hhi Hpre Htot.
  - simpl in *. rewrite wrap_int_small by (unfold int_max in *; lia).
    replace (c - 1 =? 0)%Z with true by (symmetry; apply Z.eqb_eq; lia).
    f_equal. lia.
  - cbn [length] in Hhi.
    assert (Hstep : forall n, n <= length body ->
              (1 <= c + brace_depth [x] + brace_depth (firstn n body))%Z).
    { intros n Hn. specialize (Hpre (S n) ltac:(simpl; lia)).
      simpl in Hpre |- *. lia. }
    pose proof (Hpre 1 ltac:(simpl; lia)) as H1.
    change ((x :: body) ++ ch_rbrace :: post) with (x :: (body ++ ch_rbrace :: post)).
    cbn [brace_loop]. simpl in H1, Hstep, Htot.
    unfold int_max in *.
    destruct (Ascii.eqb x ch_lbrace) eqn:El; destruct (Ascii.eqb x ch_rbrace) eqn:Er.
    + apply Ascii.eqb_eq in El, Er. subst x. discriminate.
    + rewrite wrap_int_small by (unfold int_max; lia).
      rewrite IH; try lia.
      * f_equal. simpl. lia.
      * intros n Hn. specialize (Hstep n Hn). lia.
    + rewrite wrap_int_small by (unfold int_max; lia).
      replace (c - 1 =? 0)%Z with false by (symmetry; apply Z.eqb_neq; lia).
      rewrite IH; try lia.
      * f_equal. simpl. lia.
      * intros n Hn. specialize (Hstep n Hn). lia.
    + rewrite IH; try lia.
      * f_equal. simpl. lia.
      * intros n Hn. specialize (Hstep n Hn). lia.
Qed.

Lemma firstn_app_length {A} (a b : list A) : firstn (length a) (a ++ b) = a.
Proof. induction a; simpl; [reflexivity | now f_equal]. Qed.

Lemma skipn_app2 {A} (a b r : list A) :
  skipn (length a + length b) (a ++ b ++ r) = r.
Proof.
  rewrite app_assoc, <- length_app. apply skipn_app_length.
Qed.

(** From the opening brace of an object whose body has its braces
    matched, the loop of lines 107-118 (and 216-227) stops right after the
    closing brace of that object. *)
Lemma matching_end_object (json : text) (pos : nat) (body post : text) :
  skipn pos json = ch_lbrace :: body ++ ch_rbrace :: post ->
  balanced body ->
  (Z.of_nat (length json) <= int_max)%Z ->
  matching_end json pos = pos + length body + 2
  /\ substr json pos (matching_end json pos - pos)
     = ch_lbrace :: body ++ [ch_rbrace].
Proof.
  intros Hskip [Hpre Htot] Hlen.
  assert (Hbody : length body + 2 <= length json).
  { pose proof (length_skipn pos json) as H. rewrite Hskip in H.
    cbn [length] in H. rewrite length_app in H. cbn [length] in H. lia. }
  assert (Hend : matching_end json pos = pos + length body + 2).
  { unfold matching_end. rewrite Hskip. cbn [brace_loop].
    replace (Ascii.eqb ch_lbrace ch_lbrace) with true by reflexivity.
    replace (Ascii.eqb ch_lbrace ch_rbrace) with false by reflexivity.
    rewrite wrap_int_small by (unfold int_max; lia).
    rewrite brace_loop_close.
    - lia.
    - lia.
    - unfold int_max in *. lia.
    - intros n Hn. specialize (Hpre n Hn). lia.
    - lia. }
  split; [exact Hend|].
  rewrite Hend.
  replace (pos + length body + 2 - pos) with (S (length body + 1)) by lia.
  unfold substr. rewrite Hskip. cbn [firstn].
  replace (length body + 1) with (length (body ++ [ch_rbrace]))
    by (rewrite length_app; simpl; lia).
  change (ch_rbrace :: post) with ([ch_rbrace] ++ post).
  now rewrite app_assoc, firstn_app_length.
Qed.

(** Lines 209-228 on a buffer that holds the quoted key [weather], with
    no earlier occurrence of it, then no bracket up to the one that opens
    the array, then no brace up to the one that opens the first element,
    whose body has its braces matched. *)
Lemma first_weather_object_located
    (response_data pre mid1 mid2 body post : text) :
  response_data
  = pre ++ quoted (str "weather") ++ mid1
        ++ ch_lbracket :: mid2 ++ ch_lbrace :: body ++ ch_rbrace :: post ->
  (forall j, j < length pre ->
     ~ occurs_at (quoted (str "weather")) response_data j) ->
  ~ In ch_lbracket mid1 ->
  ~ In ch_lbrace mid2 ->
  balanced body ->
  (Z.of_nat (length response_data) <= int_max)%Z ->
  first_weather_object response_data = Some (ch_lbrace :: body ++ [ch_rbrace]).
Proof.
  intros -> Hfirst Hbracket Hbrace Hbal Hlen.
  unfold first_weather_object.
  rewrite find_first_occurrence by exact Hfirst.
  set (key := quoted (str "weather")) in *.
  set (tail := ch_lbrace :: body ++ ch_rbrace :: post) in *.
  replace (pre ++ key ++ mid1 ++ ch_lbracket :: mid2 ++ tail)
    with (pre ++ (key ++ mid1) ++ ch_lbracket :: mid2 ++ tail)
    in * by now rewrite <- app_assoc.
  rewrite find_char_after.
  2:{ intros H. apply in_app_or in H as [H | H]; [|contradiction].
      subst key. vm_compute in H.
      repeat match goal with
             | H : _ \/ _ |- _ => destruct H as [H | H]
             end; try discriminate; contradiction. }
  assert (Hshape : pre ++ (key ++ mid1) ++ ch_lbracket :: mid2 ++ tail
                   = (pre ++ key ++ mid1) ++ (ch_lbracket :: mid2) ++ tail).
  { rewrite <- !app_assoc. reflexivity. }
  assert (Harr : length pre + length (key ++ mid1) = length (pre ++ key ++ mid1))
    by (rewrite !length_app; lia).
  rewrite Harr, Hshape in *.
  subst tail. rewrite find_char_after.
  2:{ intros [H | H]; [discriminate | contradiction]. }
  set (obj_start := length (pre ++ key ++ mid1) + length (ch_lbracket :: mid2)).
  destruct (matching_end_object _ obj_start body post
              (skipn_app2 _ _ _) Hbal Hlen) as [_ Hspan].
  now rewrite Hspan.
Qed.

(** ** The extractor: claims C3 to C7 *)

(** C3, as amended.  Let the buffer hold the quoted key, with no earlier
    occurrence of it and no colon inside the key or between the key and
    its colon, then only spaces and tabs, then a string literal made of
    ordinary characters and two-character escapes.  For a key without a
    dot, [extractJsonValue] returns the decoded literal: each escape gives
    one character, [\n] the newline, [\t] the tab, any other [\x] the
    character [x]; and unless the literal escapes a backslash the result
    holds no backslash. *)
Theorem extract_string_literal
    (json pre key mid ws post : text) (items : list StrItem) :
  json = member_text pre key mid ws
           (ch_dquote :: literal_source items ++ ch_dquote :: post) ->
  ~ In ch_dot key ->
  (forall j, j < length pre -> ~ occurs_at (quoted key) json j) ->
  ~ In ch_colon (key ++ mid) ->
  Forall is_blank ws ->
  Forall plain_ok items ->
  extractJsonValue json key = decoded items
  /\ (~ In (Escaped ch_backslash) items ->
      ~ In ch_backslash (extractJsonValue json key)).
Proof.
  intros -> Hdot Hfirst Hcolon Hws Hitems.
  assert (Hv : extractJsonValue
                 (member_text pre key mid ws
                    (ch_dquote :: literal_source items ++ ch_dquote :: post)) key
               = decoded items).
  { rewrite extractJsonValue_unfold, (find_char_absent _ _ Hdot).
    rewrite extract_simple_locate; auto.
    - rewrite Ascii.eqb_refl. now apply read_string_literal.
    - intros c l [= <- _] [H | H]; discriminate. }
  split; [exact Hv|].
  intros Hesc. rewrite Hv. now apply decoded_no_backslash.
Qed.

(** C3, the claim as stated fails: in the single-level object
    [{"a":"k","b":"v1","k":"v2"}] the value of the key [k] is the string
    literal [v2], and the lookup of [k] returns [v1], because the quoted key
    is first found as the value of [a]. *)
Lemma extract_string_shadowed :
  let json := json_text "{'a':'k','b':'v1','k':'v2'}" in
  json = member_text (json_text "{'a':'k','b':'v1',") (str "k") [] []
           (ch_dquote :: literal_source [Plain "v"; Plain "2"]
              ++ ch_dquote :: str "}")
  /\ extractJsonValue json (str "k") = str "v1"
  /\ extractJsonValue json (str "k") <> decoded [Plain "v"; Plain "2"].
Proof.
  cbv zeta. split; [vm_compute; reflexivity|].
  split; [vm_compute; reflexivity|].
  vm_compute. discriminate.
Qed.

Lemma extract_string_literal_witness :
  extractJsonValue (json_text "{'k':'a\nb'}") (str "k")
  = decoded [Plain "a"; Escaped "n"; Plain "b"]
  /\ (~ In (Escaped ch_backslash) [Plain "a"; Escaped "n"; Plain "b"] ->
      ~ In ch_backslash (extractJsonValue (json_text "{'k':'a\nb'}") (str "k"))).
Proof.
  apply (extract_string_literal (json_text "{'k':'a\nb'}")
           (str "{") (str "k") [] [] (str "}")
           [Plain "a"; Escaped "n"; Plain "b"]).
  - reflexivity.
  - not_in_text.
  - not_before_one.
  - not_in_text.
  - constructor.
  - repeat constructor; intros H; vm_compute in H; discriminate.
Defined.

(** C4.  The path [main.temp] gives [21.5] on
    [{"main":{"temp":21.5,"humidity":60}}] and the empty text on
    [{"other":{"temp":1}}]. *)
Theorem extract_main_temp_examples :
  extractJsonValue (json_text "{'main':{'temp':21.5,'humidity':60}}")
                   (str "main.temp") = str "21.5"
  /\ extractJsonValue (json_text "{'other':{'temp':1}}") (str "main.temp") = [].
Proof. split; vm_compute; reflexivity. Qed.

(** C5.  For a key with a dot, when the brace found after the quoted
    parent key opens a span whose depth counter is never back at zero
    before the end of the buffer, [extractJsonValue] returns the empty
    text.  (The buffer is shorter than [2^31], the range of the [int]
    counter.) *)
Theorem extract_unbalanced_parent (json key : text) (dot_pos p pos : nat) :
  find_char ch_dot key = Some dot_pos ->
  find (quoted (substr key 0 dot_pos)) json 0 = Some p ->
  find [ch_lbrace] json p = Some pos ->
  (Z.of_nat (length json) <= int_max)%Z ->
  (forall n, 0 < n <= length json - pos ->
             brace_depth (substr json pos n) <> 0%Z) ->
  extractJsonValue json key = [].
Proof.
  intros Hdot Hp Hpos Hlen Hopen.
  rewrite extractJsonValue_unfold, Hdot, Hp, Hpos.
  assert (Hend : matching_end json pos = pos).
  { unfold matching_end. rewrite brace_loop_open; [reflexivity| | |].
    - rewrite length_skipn. unfold int_max in Hlen. lia.
    - rewrite length_skipn. lia.
    - rewrite length_skipn. intros n Hn. simpl. now apply Hopen. }
  rewrite Hend, Nat.sub_diag. unfold substr. simpl.
  apply extractJsonValue_nil.
Qed.

Lemma extract_unbalanced_parent_witness :
  extractJsonValue (json_text "{'main':{'temp':21.5") (str "main.temp") = [].
Proof.
  apply (extract_unbalanced_parent (json_text "{'main':{'temp':21.5")
           (str "main.temp") 4 1 8).
  - reflexivity.
  - reflexivity.
  - reflexivity.
  - vm_compute. discriminate.
  - intros n [H0 Hn]. vm_compute in Hn.
    do 13 (destruct n as [|n]; [first [lia | vm_compute; discriminate]|]).
    exfalso. lia.
Defined.

(** C6, as amended.  Let the buffer hold the quoted key, with no earlier
    occurrence of it and no colon inside the key or between the key and
    its colon, then only spaces and tabs, then a tail that does not start
    with a space, a tab or a double quote.  For a key without a dot,
    [extractJsonValue] returns the longest prefix of the tail that holds
    none of [,] [}] [\]] space and newline, as it stands in the buffer; so
    the result holds no space and no newline and does not start with a
    tab. *)
Theorem extract_scalar_token (json pre key mid ws tail : text) :
  json = member_text pre key mid ws tail ->
  ~ In ch_dot key ->
  (forall j, j < length pre -> ~ occurs_at (quoted key) json j) ->
  ~ In ch_colon (key ++ mid) ->
  Forall is_blank ws ->
  (forall c l, tail = c :: l -> ~ is_blank c /\ c <> ch_dquote) ->
  exists rest,
    tail = extractJsonValue json key ++ rest
    /\ Forall (fun c => is_delimiter c = false) (extractJsonValue json key)
    /\ (rest = [] \/ exists d rest', rest = d :: rest' /\ is_delimiter d = true)
    /\ ~ In ch_space (extractJsonValue json key)
    /\ ~ In ch_newline (extractJsonValue json key)
    /\ (forall c l, extractJsonValue json key = c :: l -> c <> ch_tab).
Proof.
  intros -> Hdot Hfirst Hcolon Hws Htail.
  assert (Hv : extractJsonValue (member_text pre key mid ws tail) key
               = read_scalar tail).
  { rewrite extractJsonValue_unfold, (find_char_absent _ _ Hdot).
    rewrite extract_simple_locate; auto.
    - destruct tail as [|c rest]; [reflexivity|].
      destruct (Htail c rest eq_refl) as [_ Hq].
      apply Ascii.eqb_neq in Hq. now rewrite Hq.
    - intros c l E. now destruct (Htail c l E). }
  rewrite Hv.
  destruct (read_scalar_prefix tail) as (rest & Hsplit & Hnd & Hrest).
  exists rest. repeat split; auto.
  - intros Hin. rewrite Forall_forall in Hnd. now apply Hnd in Hin.
  - intros Hin. rewrite Forall_forall in Hnd. now apply Hnd in Hin.
  - intros c l E ->. rewrite E in Hsplit.
    destruct (Htail ch_tab (l ++ rest) Hsplit) as [Hb _].
    apply Hb. now right.
Qed.

(** C6, the claim as stated fails: in [{"k":12<TAB>}] the token of [k]
    is followed by a tab, which is not in the delimiter set, and the result
    [12<TAB>] ends in white space; and in [{"a":"k","b":1,"k":5}] the
    lookup of [k] returns [1], the value after the first colon that follows
    the first occurrence of the quoted key. *)
Lemma extract_scalar_not_trimmed :
  (let json := json_text "{'k':12" ++ ch_tab :: str "}" in
   json = member_text (str "{") (str "k") [] [] (str "12" ++ ch_tab :: str "}")
   /\ extractJsonValue json (str "k") = str "12" ++ [ch_tab]
   /\ last (extractJsonValue json (str "k")) ch_space = ch_tab)
  /\ (let json := json_text "{'a':'k','b':1,'k':5}" in
      json = member_text (json_text "{'a':'k','b':1,") (str "k") [] [] (str "5}")
      /\ extractJsonValue json (str "k") = str "1").
Proof. repeat split; vm_compute; reflexivity. Qed.

Lemma extract_scalar_token_witness :
  exists rest,
    json_text "12,'z':1}" = extractJsonValue (json_text "{'k': 12,'z':1}") (str "k") ++ rest
    /\ Forall (fun c => is_delimiter c = false)
         (extractJsonValue (json_text "{'k': 12,'z':1}") (str "k"))
    /\ (rest = [] \/ exists d rest', rest = d :: rest' /\ is_delimiter d = true)
    /\ ~ In ch_space
         (extractJsonValue (json_text "{'k': 12,'z':1}") (str "k"))
    /\ ~ In ch_newline
         (extractJsonValue (json_text "{'k': 12,'z':1}") (str "k"))
    /\ (forall c l,
          extractJsonValue (json_text "{'k': 12,'z':1}") (str "k")
          = c :: l -> c <> ch_tab).
Proof.
  apply (extract_scalar_token (json_text "{'k': 12,'z':1}")
           (str "{") (str "k") [] [ch_space] (json_text "12,'z':1}")).
  - reflexivity.
  - not_in_text.
  - not_before_one.
  - not_in_text.
  - repeat constructor.
  - intros c l [= <- _]. split.
    + intros [H | H]; vm_compute in H; discriminate.
    + intros H; vm_compute in H; discriminate.
Defined.

(** C7.  The array lookup of [fetchWeather] finds the quoted key
    [weather], then the next bracket, then the next brace, and takes the
    span from that brace to the brace that matches it; the condition
    fields are the lookups of [main] and [description] inside that span.
    This holds for every buffer in which the quoted key has no earlier
    occurrence, no bracket comes before the array's and no brace between
    the bracket and the first element, and the element's braces are
    matched (buffers shorter than [2^31]).  On
    [{"weather":[{"main":"Clouds","description":"overcast"}]}] the span is
    the first element and the lookup of [main] inside it returns
    [Clouds]. *)
Theorem first_weather_object_main :
  (forall response_data pre mid1 mid2 body post : text,
      response_data
      = pre ++ quoted (str "weather") ++ mid1
            ++ ch_lbracket :: mid2 ++ ch_lbrace :: body ++ ch_rbrace :: post ->
      (forall j, j < length pre ->
         ~ occurs_at (quoted (str "weather")) response_data j) ->
      ~ In ch_lbracket mid1 ->
      ~ In ch_lbrace mid2 ->
      balanced body ->
      (Z.of_nat (length response_data) <= int_max)%Z ->
      first_weather_object response_data = Some (ch_lbrace :: body ++ [ch_rbrace])
      /\ condition_main (parse_response response_data)
         = extractJsonValue (ch_lbrace :: body ++ [ch_rbrace]) (str "main")
      /\ condition_description (parse_response response_data)
         = extractJsonValue (ch_lbrace :: body ++ [ch_rbrace]) (str "description"))
  /\ (let response_data :=
        json_text "{'weather':[{'main':'Clouds','description':'overcast'}]}" in
      first_weather_object response_data
        = Some (json_text "{'main':'Clouds','description':'overcast'}")
      /\ option_map (fun weather_obj => extractJsonValue weather_obj (str "main"))
                    (first_weather_object response_data) = Some (str "Clouds")
      /\ condition_main (parse_response response_data) = str "Clouds").
Proof.
  assert (General : forall response_data pre mid1 mid2 body post : text,
      response_data
      = pre ++ quoted (str "weather") ++ mid1
            ++ ch_lbracket :: mid2 ++ ch_lbrace :: body ++ ch_rbrace :: post ->
      (forall j, j < length pre ->
         ~ occurs_at (quoted (str "weather")) response_data j) ->
      ~ In ch_lbracket mid1 ->
      ~ In ch_lbrace mid2 ->
      balanced body ->
      (Z.of_nat (length response_data) <= int_max)%Z ->
      first_weather_object response_data = Some (ch_lbrace :: body ++ [ch_rbrace])
      /\ condition_main (parse_response response_data)
         = extractJsonValue (ch_lbrace :: body ++ [ch_rbrace]) (str "main")
      /\ condition_description (parse_response response_data)
         = extractJsonValue (ch_lbrace :: body ++ [ch_rbrace]) (str "description")).
  { intros response_data pre mid1 mid2 body post Hshape Hfirst Hbracket Hbrace
           Hbal Hlen.
    pose proof (first_weather_object_located _ _ _ _ _ _ Hshape Hfirst Hbracket
                  Hbrace Hbal Hlen) as Hobj.
    split; [exact Hobj|].
    unfold parse_response. rewrite Hobj. cbn [condition_main condition_description].
    split; reflexivity. }
  split; [exact General|].
  cbv zeta.
  destruct (General
              (json_text "{'weather':[{'main':'Clouds','description':'overcast'}]}")
              (str "{") (str ":") []
              (json_text "'main':'Clouds','description':'overcast'") (str "]}"))
    as (Hobj & Hmain & _).
  - reflexivity.
  - not_before_one.
  - not_in_text.
  - intros [].
  - split; [|reflexivity].
    intros n Hn. vm_compute in Hn.
    do 41 (destruct n as [|n]; [vm_compute; discriminate|]).
    exfalso. lia.
  - vm_compute. discriminate.
  - split; [exact Hobj|]. split.
    + rewrite Hobj. vm_compute. reflexivity.
    + rewrite Hmain. vm_compute. reflexivity.
Qed.

Lemma first_weather_object_main_witness :
  let response_data :=
    json_text "{'info':'no weather yet','weather':{'list':[ {'main':'Clouds','wind':{'speed':1},'description':'overcast'}],'n':1}}" in
  let weather_obj :=
    json_text "{'main':'Clouds','wind':{'speed':1},'description':'overcast'}" in
  (first_weather_object response_data = Some weather_obj
   /\ condition_main (parse_response response_data)
      = extractJsonValue weather_obj (str "main")
   /\ condition_description (parse_response response_data)
      = extractJsonValue weather_obj (str "description"))
  /\ extractJsonValue weather_obj (str "main") = str "Clouds"
  /\ extractJsonValue weather_obj (str "description") = str "overcast".
Proof.
  intros response_data weather_obj. split.
  - apply (proj1 first_weather_object_main response_data
             (json_text "{'info':'no weather yet',") (json_text ":{'list':")
             (str " ")
             (json_text "'main':'Clouds','wind':{'speed':1},'description':'overcast'")
             (json_text "],'n':1}}")).
    + reflexivity.
    + intros j Hj H. apply occurs_at_starts_with in H. destruct H as [_ H].
      vm_compute in Hj.
      do 25 (destruct j as [|j]; [vm_compute in H; discriminate|]).
      exfalso. lia.
    + not_in_text.
    + not_in_text.
    + split; [|reflexivity].
      intros n Hn. vm_compute in Hn.
      do 60 (destruct n as [|n]; [vm_compute; discriminate|]).
      exfalso. lia.
    + vm_compute. discriminate.
  - split; vm_compute; reflexivity.
Defined.

(** ** The loop: claims C1, C2, C8 and C10 *)

Lemma wrap_time_small (z : Z) :
  (time_min <= z <= time_max)%Z -> wrap_time z = z.
Proof.
  unfold wrap_time, time_min, time_max. intros H.
  rewrite Z.mod_small; lia.
Qed.

Lemma waits_app (a b : list Event) : waits (a ++ b) = waits a ++ waits b.
Proof. apply flat_map_app. Qed.

Lemma fetches_app (a b : list Event) : fetches (a ++ b) = fetches a ++ fetches b.
Proof. apply flat_map_app. Qed.

Lemma waits_clock (lines : list text) (t : Z) :
  waits (map (fun line => EvDrawClock line t) lines) = [].
Proof. induction lines; simpl; auto. Qed.

Lemma fetches_clock (lines : list text) (t : Z) :
  fetches (map (fun line => EvDrawClock line t) lines) = [].
Proof. induction lines; simpl; auto. Qed.

Lemma waits_weather_line (cfg : Config) (w : WeatherData) :
  waits [weather_line cfg w] = [].
Proof. unfold weather_line. now destruct (valid w). Qed.

Lemma fetches_weather_line (cfg : Config) (w : WeatherData) :
  fetches [weather_line cfg w] = [].
Proof. unfold weather_line. now destruct (valid w). Qed.

Lemma waits_iteration (cfg : Config) (outcome : CurlOutcome) (st : LoopState) :
  waits (fst (iteration cfg outcome st)) = [next_time_sec st].
Proof.
  unfold iteration. cbn [fst].
  change [weather_line cfg (if refresh_due cfg st then fetchWeather outcome
                            else current_weather st);
          EvWaitUntil (next_time_sec st); EvSwap]
    with ([weather_line cfg (if refresh_due cfg st then fetchWeather outcome
                             else current_weather st)]
          ++ [EvWaitUntil (next_time_sec st); EvSwap]).
  rewrite !waits_app, waits_clock, waits_weather_line.
  now destruct (refresh_due cfg st).
Qed.

Lemma fetches_iteration (cfg : Config) (outcome : CurlOutcome) (st : LoopState) :
  fetches (fst (iteration cfg outcome st)) =
  if refresh_due cfg st then [fetchWeather outcome] else [].
Proof.
  unfold iteration. cbn [fst].
  change [weather_line cfg (if refresh_due cfg st then fetchWeather outcome
                            else current_weather st);
          EvWaitUntil (next_time_sec st); EvSwap]
    with ([weather_line cfg (if refresh_due cfg st then fetchWeather outcome
                             else current_weather st)]
          ++ [EvWaitUntil (next_time_sec st); EvSwap]).
  rewrite !fetches_app, fetches_clock, fetches_weather_line.
  now destruct (refresh_due cfg st).
Qed.

Lemma main_loop_cons (cfg : Config) (inp : TickInput) (inputs : list TickInput)
    (st : LoopState) :
  running inp ->
  main_loop cfg (inp :: inputs) st =
  (fst (iteration cfg (curl_outcome inp) st)
     :: fst (main_loop cfg inputs (snd (iteration cfg (curl_outcome inp) st))),
   snd (main_loop cfg inputs (snd (iteration cfg (curl_outcome inp) st)))).
Proof.
  unfold running. intros H. cbn [main_loop]. rewrite H.
  destruct (iteration cfg (curl_outcome inp) st) as [evs st1]. cbn [fst snd].
  now destruct (main_loop cfg inputs st1).
Qed.

(** The deadlines of a run, whatever the transfers deliver. *)
Lemma main_loop_waits (cfg : Config) (inputs : list TickInput) :
  forall (st : LoopState),
  Forall running inputs ->
  (time_min <= next_time_sec st)%Z ->
  (next_time_sec st + Z.of_nat (length inputs) <= time_max)%Z ->
  map waits (fst (main_loop cfg inputs st))
  = map (fun k => [(next_time_sec st + Z.of_nat k)%Z]) (seq 0 (length inputs))
  /\ next_time_sec (snd (main_loop cfg inputs st))
     = (next_time_sec st + Z.of_nat (length inputs))%Z.
Proof.
  induction inputs as [|inp inputs IH]; intros st Hrun Hlo Hhi.
  - simpl. split; [reflexivity | lia].
  - inversion Hrun as [|? ? Hinp Hrest]; subst.
    rewrite main_loop_cons by exact Hinp. cbn [fst snd].
    simpl length in *.
    set (st1 := snd (iteration cfg (curl_outcome inp) st)).
    assert (Hnext : next_time_sec st1 = (next_time_sec st + 1)%Z).
    { subst st1. unfold iteration. cbn [snd next_time_sec].
      apply wrap_time_small. unfold time_min, time_max in *. lia. }
    destruct (IH st1 Hrest) as [IHw IHn]; try (rewrite Hnext; lia).
    split.
    + cbn [map seq]. rewrite waits_iteration, IHw.
      f_equal; [f_equal; lia|].
      rewrite <- seq_shift, map_map.
      apply map_ext. intros k. rewrite Hnext. f_equal. lia.
    + rewrite IHn, Hnext. lia.
Qed.

Lemma valid_parse_response (response_data : text) :
  valid (parse_response response_data) = true.
Proof.
  unfold parse_response.
  now destruct (first_weather_object response_data).
Qed.

(** Every record [fetchWeather] returns with [valid = false] is the
    default-constructed one. *)
Lemma fetchWeather_invalid (outcome : CurlOutcome) :
  valid (fetchWeather outcome) = false -> fetchWeather outcome = WeatherData_ctor.
Proof.
  destruct outcome as [| |response_code response_data]; simpl; auto.
  destruct (response_code =? 200)%Z; simpl; auto.
  rewrite valid_parse_response. discriminate.
Qed.

Lemma no_weather_drawn_clock (lines : list text) (t : Z) :
  existsb draws_weather (map (fun line => EvDrawClock line t) lines) = false.
Proof. induction lines; simpl; auto. Qed.

Lemma attempt_time_iteration (cfg : Config) (outcome : CurlOutcome) (st : LoopState) :
  attempt_time (fst (iteration cfg outcome st)) =
  if refresh_due cfg st then Some (next_time_sec st) else None.
Proof.
  unfold attempt_time. rewrite fetches_iteration, waits_iteration.
  now destruct (refresh_due cfg st).
Qed.

(** [last_weather_fetch] is the deadline of the latest iteration that
    called [fetchWeather]. *)
Lemma last_weather_fetch_is_last_attempt (cfg : Config) (inputs : list TickInput) :
  forall st,
  last_weather_fetch (snd (main_loop cfg inputs st))
  = last_attempt (fst (main_loop cfg inputs st)) (last_weather_fetch st).
Proof.
  induction inputs as [|inp inputs IH]; intros st; [reflexivity|].
  destruct (interrupt_received inp) eqn:Hint.
  - cbn [main_loop]. now rewrite Hint.
  - rewrite main_loop_cons by exact Hint. cbn [fst snd].
    rewrite IH. unfold last_attempt at 2. cbn [fold_left].
    rewrite attempt_time_iteration.
    unfold iteration. cbn [snd last_weather_fetch].
    now destruct (refresh_due cfg st).
Qed.

(** C2.  In a run of N iterations that starts with the deadline [start],
    the k-th iteration waits exactly once, on [start + k], and the deadline
    after k iterations is [start + k], for every k up to N and whatever the
    transfers of the run deliver: the loop body reads no clock, so the work
    of an iteration and the time it takes do not enter the update of the
    deadline.  (The deadlines are within the range of [time_t].) *)
Theorem deadline_sequence (cfg : Config) (inputs : list TickInput)
    (st : LoopState) (start : Z) :
  next_time_sec st = start ->
  Forall running inputs ->
  (time_min <= start)%Z ->
  (start + Z.of_nat (length inputs) <= time_max)%Z ->
  map waits (fst (main_loop cfg inputs st))
  = map (fun k => [(start + Z.of_nat k)%Z]) (seq 0 (length inputs))
  /\ forall k, k <= length inputs ->
       next_time_sec (snd (main_loop cfg (firstn k inputs) st))
       = (start + Z.of_nat k)%Z.
Proof.
  intros <- Hrun Hlo Hhi. split.
  - now apply main_loop_waits.
  - intros k Hk.
    assert (Hlen : length (firstn k inputs) = k) by (apply firstn_length_le; lia).
    destruct (main_loop_waits cfg (firstn k inputs) st) as [_ H].
    + apply Forall_forall. intros x Hx.
      rewrite Forall_forall in Hrun. apply Hrun.
      rewrite <- (firstn_skipn k inputs). apply in_or_app. now left.
    + exact Hlo.
    + rewrite Hlen. lia.
    + now rewrite H, Hlen.
Qed.

Lemma deadline_sequence_witness :
  let cfg := mkConfig [str "%H:%M"] 600 (str "metric") in
  let inputs := [mkTickInput false CurlPerformFailed;
                 mkTickInput false (CurlPerformed 500 []);
                 mkTickInput false CurlInitFailed] in
  map waits (fst (main_loop cfg inputs (init_state 1700000000)))
  = map (fun k => [(1700000000 + Z.of_nat k)%Z]) (seq 0 (length inputs))
  /\ forall k, k <= length inputs ->
       next_time_sec (snd (main_loop cfg (firstn k inputs) (init_state 1700000000)))
       = (1700000000 + Z.of_nat k)%Z.
Proof.
  apply (deadline_sequence (mkConfig [str "%H:%M"] 600 (str "metric"))
           [mkTickInput false CurlPerformFailed;
            mkTickInput false (CurlPerformed 500 []);
            mkTickInput false CurlInitFailed]
           (init_state 1700000000) 1700000000).
  - reflexivity.
  - repeat constructor.
  - vm_compute. discriminate.
  - vm_compute. discriminate.
Defined.

(** C1, the claim as stated fails: with [--weather-refresh 2], after a
    successful refresh at 1000 the record is valid; the refresh that is due
    at 1002 fails and the record after that tick differs from the one
    before it. *)
Lemma failed_refresh_changes_record :
  let cfg := mkConfig [str "%H:%M"] 2 (str "metric") in
  let body := json_text "{'weather':[{'main':'Clouds'}],'main':{'temp':21.5}}" in
  let st := snd (main_loop cfg [mkTickInput false (CurlPerformed 200 body);
                                mkTickInput false CurlPerformFailed]
                           (init_state 1000)) in
  valid (current_weather st) = true
  /\ refresh_due cfg st = true
  /\ valid (fetchWeather CurlPerformFailed) = false
  /\ current_weather (snd (iteration cfg CurlPerformFailed st)) <> current_weather st.
Proof.
  cbv zeta. do 3 (split; [vm_compute; reflexivity|]).
  vm_compute. discriminate.
Qed.

(** C1, as amended.  When a refresh is due and [fetchWeather] returns an
    unsuccessful result, the cached record after the tick is the
    default-constructed one, that tick draws the status [Loading...] and no
    weather text, and the run goes on at the same cadence: the tick waits on
    its deadline and the k-th tick after it waits on that deadline plus
    [1 + k]. *)
Theorem failed_refresh_resets_record (cfg : Config) (outcome : CurlOutcome)
    (st : LoopState) (inputs : list TickInput) :
  refresh_due cfg st = true ->
  valid (fetchWeather outcome) = false ->
  Forall running inputs ->
  (time_min <= next_time_sec st)%Z ->
  (next_time_sec st + 1 + Z.of_nat (length inputs) <= time_max)%Z ->
  current_weather (snd (iteration cfg outcome st)) = WeatherData_ctor
  /\ In (EvDrawStatus (str "Loading...")) (fst (iteration cfg outcome st))
  /\ existsb draws_weather (fst (iteration cfg outcome st)) = false
  /\ waits (fst (iteration cfg outcome st)) = [next_time_sec st]
  /\ map waits (fst (main_loop cfg inputs (snd (iteration cfg outcome st))))
     = map (fun k => [(next_time_sec st + 1 + Z.of_nat k)%Z])
           (seq 0 (length inputs)).
Proof.
  intros Hdue Hbad Hrun Hlo Hhi.
  apply fetchWeather_invalid in Hbad.
  assert (Hnext : next_time_sec (snd (iteration cfg outcome st))
                  = (next_time_sec st + 1)%Z).
  { unfold iteration. cbn [snd next_time_sec].
    apply wrap_time_small. unfold time_min, time_max in *. lia. }
  repeat split.
  - unfold iteration. cbn [snd current_weather]. now rewrite Hdue.
  - unfold iteration. cbn [fst]. rewrite Hdue, Hbad.
    apply in_or_app. right. apply in_or_app. right. apply in_or_app. right.
    left. reflexivity.
  - unfold iteration. cbn [fst]. rewrite Hdue, Hbad.
    rewrite !existsb_app, no_weather_drawn_clock. reflexivity.
  - apply waits_iteration.
  - destruct (main_loop_waits cfg inputs (snd (iteration cfg outcome st)))
      as [Hw _]; try (rewrite Hnext; lia); [exact Hrun|].
    rewrite Hw. apply map_ext. intros k. now rewrite Hnext.
Qed.

Lemma failed_refresh_resets_record_witness :
  let cfg := mkConfig [str "%H:%M"] 2 (str "metric") in
  let body := json_text "{'weather':[{'main':'Clouds'}],'main':{'temp':21.5}}" in
  let st := snd (main_loop cfg [mkTickInput false (CurlPerformed 200 body);
                                mkTickInput false CurlPerformFailed]
                           (init_state 1000)) in
  let inputs := [mkTickInput false CurlPerformFailed;
                 mkTickInput false CurlPerformFailed] in
  (valid (current_weather st) = true
   /\ condition_main (current_weather st) = str "Clouds"
   /\ current_weather st <> WeatherData_ctor)
  /\ (current_weather (snd (iteration cfg (CurlPerformed 404 []) st))
      = WeatherData_ctor
      /\ In (EvDrawStatus (str "Loading..."))
            (fst (iteration cfg (CurlPerformed 404 []) st))
      /\ existsb draws_weather (fst (iteration cfg (CurlPerformed 404 []) st))
         = false
      /\ waits (fst (iteration cfg (CurlPerformed 404 []) st)) = [next_time_sec st]
      /\ map waits
           (fst (main_loop cfg inputs
                   (snd (iteration cfg (CurlPerformed 404 []) st))))
         = map (fun k => [(next_time_sec st + 1 + Z.of_nat k)%Z])
               (seq 0 (length inputs))).
Proof.
  intros cfg body st inputs. split.
  - split; [vm_compute; reflexivity|].
    split; [vm_compute; reflexivity|].
    vm_compute. discriminate.
  - apply (failed_refresh_resets_record cfg (CurlPerformed 404 []) st inputs).
    + vm_compute. reflexivity.
    + reflexivity.
    + repeat constructor.
    + vm_compute. discriminate.
    + vm_compute. discriminate.
Defined.

(** C8, the claim as stated fails: with [--weather-refresh 2], the refresh
    at 1000 succeeds and the one at 1002 fails; at 1003 the time since the
    last successful refresh is 3, which exceeds the interval, and the
    iteration does not call [fetchWeather]. *)
Lemma refresh_not_retried_after_failure :
  let cfg := mkConfig [str "%H:%M"] 2 (str "metric") in
  let body := json_text "{'weather':[{'main':'Clouds'}],'main':{'temp':21.5}}" in
  let run := main_loop cfg [mkTickInput false (CurlPerformed 200 body);
                            mkTickInput false CurlPerformFailed;
                            mkTickInput false CurlPerformFailed]
                       (init_state 1000) in
  last_success (fst run) 0 = 1000%Z
  /\ next_time_sec (snd run) = 1003%Z
  /\ (weather_refresh cfg <= next_time_sec (snd run) - last_success (fst run) 0)%Z
  /\ fetches (fst (iteration cfg (CurlPerformed 200 body) (snd run))) = [].
Proof.
  cbv zeta. do 2 (split; [vm_compute; reflexivity|]).
  split; [vm_compute; discriminate | vm_compute; reflexivity].
Qed.

(** C8, as amended.  After any run from the initial state, the next
    iteration calls [fetchWeather] at most once, and it calls it exactly
    when its deadline minus the deadline of the latest iteration that
    attempted a refresh, successful or not (0 before the first attempt),
    reaches the refresh interval; the call comes right after the fill and
    before anything is drawn, within the same iteration. *)
Theorem refresh_once_when_due (cfg : Config) (now : Z)
    (inputs : list TickInput) (outcome : CurlOutcome) :
  let log := fst (main_loop cfg inputs (init_state now)) in
  let st := snd (main_loop cfg inputs (init_state now)) in
  let evs := fst (iteration cfg outcome st) in
  length (fetches evs) <= 1
  /\ (length (fetches evs) = 1 <->
      (weather_refresh cfg <= wrap_time (next_time_sec st - last_attempt log 0))%Z)
  /\ (fetches evs = [] \/ fetches evs = [fetchWeather outcome])
  /\ exists rest,
       evs = EvFill :: map EvFetchWeather (fetches evs) ++ rest
       /\ fetches rest = [].
Proof.
  intros log st evs.
  assert (Hlast : last_weather_fetch st = last_attempt log 0).
  { subst st log. now rewrite last_weather_fetch_is_last_attempt. }
  assert (Hf : fetches evs = if refresh_due cfg st then [fetchWeather outcome] else [])
    by apply fetches_iteration.
  assert (Hdue : refresh_due cfg st = true <->
                 (weather_refresh cfg
                  <= wrap_time (next_time_sec st - last_attempt log 0))%Z).
  { unfold refresh_due. rewrite Hlast. apply Z.leb_le. }
  repeat split.
  - rewrite Hf. destruct (refresh_due cfg st); simpl; lia.
  - rewrite Hf. intros H. apply Hdue.
    destruct (refresh_due cfg st); [reflexivity | discriminate].
  - intros H. apply Hdue in H. now rewrite Hf, H.
  - rewrite Hf. destruct (refresh_due cfg st); auto.
  - exists (map (fun line => EvDrawClock line (next_time_sec st)) (format_lines cfg)
            ++ [weather_line cfg (current_weather (snd (iteration cfg outcome st)));
                EvWaitUntil (next_time_sec st); EvSwap]).
    split.
    + rewrite Hf. subst evs. unfold iteration. cbn [fst snd current_weather].
      now destruct (refresh_due cfg st).
    + rewrite fetches_app, fetches_clock.
      change [weather_line cfg (current_weather (snd (iteration cfg outcome st)));
              EvWaitUntil (next_time_sec st); EvSwap]
        with ([weather_line cfg (current_weather (snd (iteration cfg outcome st)))]
              ++ [EvWaitUntil (next_time_sec st); EvSwap]).
      now rewrite fetches_app, fetches_weather_line.
Qed.

(** C10, the claim as stated fails: on a 200 response whose first weather
    object has no [main], the extraction of [main] is empty and
    [condition_main] is the empty text, not [Unknown]. *)
Lemma condition_main_overwritten :
  let response_data := json_text "{'weather':[{'id':800}]}" in
  option_map (fun weather_obj => extractJsonValue weather_obj (str "main"))
             (first_weather_object response_data) = Some []
  /\ condition_main (fetchWeather (CurlPerformed 200 response_data)) = []
  /\ condition_main (fetchWeather (CurlPerformed 200 response_data))
     <> condition_main WeatherData_ctor.
Proof.
  cbv zeta. do 2 (split; [vm_compute; reflexivity|]).
  vm_compute. discriminate.
Qed.

(** C10, as amended.  On status 200 [fetchWeather] returns a record with
    [valid = true] whatever the body holds.  A numeric field or the
    timestamp whose extraction is empty keeps its constructor default 0.
    [condition_main] keeps [Unknown] when the first object of the weather
    array cannot be located; when that object is located and the extraction
    of [main] from it is not empty, [condition_main] is that extraction. *)
Theorem fetch_ok_defaults (response_data : text) :
  let w := fetchWeather (CurlPerformed 200 response_data) in
  valid w = true
  /\ (extractJsonValue response_data (str "main.temp") = [] ->
      temp w = FloatOfInt 0)
  /\ (extractJsonValue response_data (str "main.feels_like") = [] ->
      feels_like w = FloatOfInt 0)
  /\ (extractJsonValue response_data (str "main.humidity") = [] ->
      humidity w = FloatOfInt 0)
  /\ (extractJsonValue response_data (str "wind.speed") = [] ->
      wind_speed w = FloatOfInt 0)
  /\ (extractJsonValue response_data (str "dt") = [] ->
      timestamp w = TimeOfInt 0)
  /\ (first_weather_object response_data = None ->
      condition_main w = str "Unknown")
  /\ (forall weather_obj,
        first_weather_object response_data = Some weather_obj ->
        extractJsonValue weather_obj (str "main") <> [] ->
        condition_main w = extractJsonValue weather_obj (str "main")).
Proof.
  cbv zeta. change (fetchWeather (CurlPerformed 200 response_data))
    with (parse_response response_data).
  split; [apply valid_parse_response|].
  unfold parse_response.
  destruct (first_weather_object response_data) as [obj|]; cbn [temp feels_like
    humidity wind_speed timestamp condition_main];
    repeat split; try (intros ->; reflexivity); try discriminate;
    try reflexivity.
  intros weather_obj [= <-] _. reflexivity.
Qed.

(** ** The extractor and its buffer: claim C9 *)

Lemma nth_local (st : Store.store) (x : text) : nth (length st) (st ++ [x]) [] = x.
Proof. rewrite app_nth2 by lia. now rewrite Nat.sub_diag. Qed.

Lemma update_local (st : Store.store) (x y : text) :
  Store.update (length st) y (st ++ [x]) = st ++ [y].
Proof. induction st as [|a st IH]; simpl; [reflexivity | now rewrite IH]. Qed.

Lemma nth_error_local (st : Store.store) (x : text) :
  nth_error (st ++ [x]) (length st) = Some x.
Proof. rewrite nth_error_app2 by lia. now rewrite Nat.sub_diag. Qed.

(** A call returns what the function over values returns on the content of
    the buffer, and hands the store back as it was. *)
Lemma store_extract_fuel (fuel : nat) :
  forall (st : Store.store) (json : Store.ref) (key buffer : text),
  nth_error st json = Some buffer ->
  Store.extractJsonValue_fuel fuel json key st
  = (extractJsonValue_fuel fuel buffer key, st).
Proof.
  induction fuel as [|fuel IH]; intros st json key buffer Hbuf.
  - cbn [Store.extractJsonValue_fuel extractJsonValue_fuel].
    unfold Store.bind, Store.load, Store.construct, Store.destroy, Store.ret.
    rewrite (nth_error_nth _ _ _ Hbuf).
    destruct (find_char ch_dot key); rewrite ?nth_local, removelast_last; reflexivity.
  - cbn [Store.extractJsonValue_fuel extractJsonValue_fuel].
    unfold Store.bind at 1 2. unfold Store.load at 1. unfold Store.construct.
    rewrite (nth_error_nth _ _ _ Hbuf).
    destruct (find_char ch_dot key) as [dot_pos|].
    2:{ unfold Store.bind, Store.load, Store.destroy, Store.ret.
        now rewrite nth_local, removelast_last. }
    unfold Store.bind at 1. unfold Store.bind at 1. unfold Store.load at 1.
    rewrite nth_local.
    destruct (find (quoted (substr key 0 dot_pos)) buffer 0) as [pos|].
    2:{ unfold Store.bind, Store.destroy, Store.ret. now rewrite removelast_last. }
    destruct (find [ch_lbrace] buffer pos) as [pos'|].
    2:{ unfold Store.bind, Store.destroy, Store.ret. now rewrite removelast_last. }
    unfold Store.bind at 1. unfold Store.assign. rewrite update_local.
    rewrite (IH _ _ _ _ (nth_error_local st _)).
    unfold Store.bind, Store.destroy, Store.ret. now rewrite removelast_last.
Qed.

(** C9.  With the buffer an object of the store: two calls in a row with
    the same reference and key return the same value, a function of the
    buffer's content and the key alone, and after each call the buffer
    holds what it held before; indeed the whole store is as it was. *)
Theorem extract_twice_same_buffer_unchanged
    (st : Store.store) (json : Store.ref) (key buffer : text) :
  nth_error st json = Some buffer ->
  let first := Store.extractJsonValue json key st in
  let second := Store.extractJsonValue json key (snd first) in
  fst first = fst second
  /\ fst first = extractJsonValue buffer key
  /\ nth_error (snd first) json = Some buffer
  /\ nth_error (snd second) json = Some buffer
  /\ snd first = st /\ snd second = st.
Proof.
  intros Hbuf. cbv zeta. unfold Store.extractJsonValue.
  rewrite (store_extract_fuel _ _ _ _ _ Hbuf). cbn [fst snd].
  rewrite (store_extract_fuel _ _ _ _ _ Hbuf). cbn [fst snd].
  repeat split; auto.
Qed.

Lemma extract_twice_same_buffer_unchanged_witness :
  let st := [str "unrelated"; json_text "{'main':{'temp':21.5,'humidity':60}}"] in
  let first := Store.extractJsonValue 1 (str "main.temp") st in
  let second := Store.extractJsonValue 1 (str "main.temp") (snd first) in
  fst first = fst second
  /\ fst first = extractJsonValue
                   (json_text "{'main':{'temp':21.5,'humidity':60}}") (str "main.temp")
  /\ nth_error (snd first) 1
     = Some (json_text "{'main':{'temp':21.5,'humidity':60}}")
  /\ nth_error (snd second) 1
     = Some (json_text "{'main':{'temp':21.5,'humidity':60}}")
  /\ snd first = st /\ snd second = st.
Proof.
  apply (extract_twice_same_buffer_unchanged
           [str "unrelated"; json_text "{'main':{'temp':21.5,'humidity':60}}"]
           1 (str "main.temp")
           (json_text "{'main':{'temp':21.5,'humidity':60}}")).
  reflexivity.
Defined.

(** ** Further properties of the extractor *)

Lemma find_nowhere (pat s : text) :
  (forall j, ~ occurs_at pat s j) -> find pat s 0 = None.
Proof.
  intros H. destruct (find pat s 0) as [k|] eqn:E; [|reflexivity].
  apply find_least in E as (_ & Hocc & _). now apply H in Hocc.
Qed.

Lemma find_char_nowhere (c : ascii) (s : text) (pos : nat) :
  ~ In c s -> find [c] s pos = None.
Proof.
  intros H. unfold find. destruct (pos <=? length s); [|reflexivity].
  apply find_in_absent. intros Hin. apply H.
  rewrite <- (firstn_skipn pos s). apply in_or_app. now right.
Qed.

Lemma in_substr (c : ascii) (s : text) (pos n : nat) :
  In c (substr s pos n) -> In c s.
Proof.
  unfold substr. intros H.
  rewrite <- (firstn_skipn pos s). apply in_or_app. right.
  rewrite <- (firstn_skipn n (skipn pos s)). apply in_or_app. now left.
Qed.

(** X1.  When the quoted first segment of the key occurs nowhere in the
    buffer, the result is empty, for a plain key and for a dotted one. *)
Theorem extract_missing_key (json key : text) :
  (forall j, ~ occurs_at (quoted (first_segment key)) json j) ->
  extractJsonValue json key = [].
Proof.
  intros H. rewrite extractJsonValue_unfold. unfold first_segment in H.
  destruct (find_char ch_dot key) as [dot_pos|].
  - now rewrite (find_nowhere _ _ H).
  - unfold extract_simple. now rewrite (find_nowhere _ _ H).
Qed.

Lemma extract_missing_key_witness :
  extractJsonValue (json_text "{'other':{'temp':1}}") (str "main.temp") = [].
Proof.
  apply (extract_missing_key (json_text "{'other':{'temp':1}}") (str "main.temp")).
  intros j H. apply occurs_at_starts_with in H. destruct H as [Hj H].
  vm_compute in Hj.
  do 21 (destruct j as [|j]; [vm_compute in H; discriminate|]).
  exfalso. lia.
Defined.

Lemma extract_fuel_no_colon (fuel : nat) :
  forall json key, ~ In ch_colon json -> extractJsonValue_fuel fuel json key = [].
Proof.
  induction fuel as [|fuel IH]; intros json key H.
  - destruct (find_char ch_dot key) eqn:Hdot.
    + simpl. now rewrite Hdot.
    + rewrite extractJsonValue_fuel_simple by exact Hdot.
      unfold extract_simple. destruct (find _ json 0); [|reflexivity].
      now rewrite find_char_nowhere.
  - destruct (find_char ch_dot key) as [dot_pos|] eqn:Hdot.
    + simpl. rewrite Hdot.
      destruct (find _ json 0) as [pos|]; [|reflexivity].
      destruct (find _ json pos) as [pos'|]; [|reflexivity].
      apply IH. intros Hin. apply H. eapply in_substr. exact Hin.
    + rewrite extractJsonValue_fuel_simple by exact Hdot.
      unfold extract_simple. destruct (find _ json 0); [|reflexivity].
      now rewrite find_char_nowhere.
Qed.

(** X2.  A buffer without a colon yields the empty result for every key,
    dotted or not. *)
Theorem extract_no_colon (json key : text) :
  ~ In ch_colon json -> extractJsonValue json key = [].
Proof. intros H. now apply extract_fuel_no_colon. Qed.

Lemma extract_no_colon_witness :
  extractJsonValue (json_text "{'main' {'temp' 21.5}}") (str "main.temp") = [].
Proof.
  apply (extract_no_colon (json_text "{'main' {'temp' 21.5}}") (str "main.temp")).
  not_in_text.
Defined.

Lemma read_string_length_le (n : nat) :
  forall l, length l <= n -> length (read_string l) <= length l.
Proof.
  induction n as [|n IH]; intros l Hn.
  - destruct l; simpl in *; lia.
  - destruct l as [|c l]; [simpl; lia|].
    simpl in Hn. cbn [read_string].
    destruct (Ascii.eqb c ch_dquote); [simpl; lia|].
    destruct (Ascii.eqb c ch_backslash).
    + destruct l as [|x l]; [simpl; lia|].
      simpl in Hn. cbn [length].
      specialize (IH l ltac:(lia)). lia.
    + cbn [length]. specialize (IH l ltac:(lia)). lia.
Qed.

Lemma read_scalar_length_le (l : text) : length (read_scalar l) <= length l.
Proof.
  induction l as [|c l IH]; simpl; [lia|].
  destruct (is_delimiter c); simpl; lia.
Qed.

Lemma extract_simple_length_le (json key : text) :
  length (extract_simple json key) <= length json.
Proof.
  unfold extract_simple.
  destruct (find _ json 0) as [pos|]; [|simpl; lia].
  destruct (find _ json pos) as [pos'|]; [|simpl; lia].
  cbv zeta.
  set (p := skip_blank (skipn (S pos') json) (S pos')).
  pose proof (length_skipn p json) as Hlen.
  destruct (skipn p json) as [|c rest] eqn:E; [simpl; lia|].
  simpl in Hlen.
  destruct (Ascii.eqb c ch_dquote).
  - pose proof (read_string_length_le _ rest (le_n _)). lia.
  - pose proof (read_scalar_length_le (c :: rest)). simpl in *. lia.
Qed.

Lemma substr_length_le (s : text) (pos n : nat) : length (substr s pos n) <= length s.
Proof.
  unfold substr. rewrite length_firstn, length_skipn. lia.
Qed.

Lemma extract_fuel_length_le (fuel : nat) :
  forall json key, length (extractJsonValue_fuel fuel json key) <= length json.
Proof.
  induction fuel as [|fuel IH]; intros json key.
  - destruct (find_char ch_dot key) eqn:Hdot.
    + simpl. rewrite Hdot. simpl. lia.
    + rewrite extractJsonValue_fuel_simple by exact Hdot.
      apply extract_simple_length_le.
  - destruct (find_char ch_dot key) as [dot_pos|] eqn:Hdot.
    + simpl. rewrite Hdot.
      destruct (find _ json 0) as [pos|]; [|simpl; lia].
      destruct (find _ json pos) as [pos'|]; [|simpl; lia].
      etransitivity; [apply IH | apply substr_length_le].
    + rewrite extractJsonValue_fuel_simple by exact Hdot.
      apply extract_simple_length_le.
Qed.

(** X3.  The result is never longer than the buffer. *)
Theorem extract_length_le (json key : text) :
  length (extractJsonValue json key) <= length json.
Proof. apply extract_fuel_length_le. Qed.

Lemma brace_loop_range (l : text) :
  forall i c e, brace_loop l i c = Some e -> i < e <= i + length l.
Proof.
  induction l as [|x l IH]; intros i c e H; [discriminate|].
  cbn [brace_loop] in H. cbn [length].
  destruct (Ascii.eqb x ch_rbrace).
  - destruct (_ =? 0)%Z.
    + injection H as <-. lia.
    + apply IH in H. lia.
  - apply IH in H. lia.
Qed.

(** X4.  The span handed to the recursive call lies inside the buffer:
    from a position within the buffer, [matching_end] is at or after it
    and at most the length, so [substr] is never called out of range. *)
Theorem matching_end_in_range (json : text) (pos : nat) :
  pos <= length json ->
  pos <= matching_end json pos <= length json.
Proof.
  intros Hpos. unfold matching_end.
  destruct (brace_loop (skipn pos json) pos 0) as [e|] eqn:E; [|lia].
  apply brace_loop_range in E. rewrite length_skipn in E. lia.
Qed.

Lemma matching_end_in_range_witness :
  8 <= matching_end (json_text "{'main':{'temp':21.5,'humidity':60}}") 8
    <= length (json_text "{'main':{'temp':21.5,'humidity':60}}").
Proof.
  apply (matching_end_in_range
           (json_text "{'main':{'temp':21.5,'humidity':60}}") 8).
  vm_compute. repeat constructor.
Defined.

Lemma brace_loop_some (l : text) :
  forall i c e,
  (- 2 ^ 31 <= c - Z.of_nat (length l))%Z ->
  (c + Z.of_nat (length l) <= int_max)%Z ->
  brace_loop l i c = Some e ->
  (c + brace_depth (firstn (e - i) l) = 0)%Z
  /\ exists body, firstn (e - i) l = body ++ [ch_rbrace].
Proof.
  induction l as [|x l IH]; intros i c e Hlo Hhi H; [discriminate|].
  pose proof (brace_loop_range _ _ _ _ H) as Hrange.
  cbn [brace_loop] in H. cbn [length] in Hlo, Hhi, Hrange.
  assert (Hrec : forall c', (c' = c + brace_depth [x])%Z ->
            (- 2 ^ 31 <= c' - Z.of_nat (length l))%Z ->
            (c' + Z.of_nat (length l) <= int_max)%Z ->
            brace_loop l (S i) c' = Some e ->
            (c + brace_depth (firstn (e - i) (x :: l)) = 0)%Z
            /\ exists body, firstn (e - i) (x :: l) = body ++ [ch_rbrace]).
  { intros c' Hc' Hlo' Hhi' H'.
    pose proof (brace_loop_range _ _ _ _ H') as Hr'.
    destruct (IH _ _ _ Hlo' Hhi' H') as [Hd (body & Hb)].
    replace (e - i) with (S (e - S i)) by lia.
    cbn [firstn brace_depth]. split.
    - simpl in Hc'. lia.
    - exists (x :: body). now rewrite Hb. }
  destruct (Ascii.eqb x ch_lbrace) eqn:El; destruct (Ascii.eqb x ch_rbrace) eqn:Er.
  - apply Ascii.eqb_eq in El, Er. subst x. discriminate.
  - rewrite wrap_int_small in H by lia.
    apply (Hrec (c + 1)%Z); auto; simpl; rewrite ?El, ?Er; lia.
  - rewrite wrap_int_small in H by lia.
    destruct (c - 1 =? 0)%Z eqn:Ez.
    + injection H as <-. apply Z.eqb_eq in Ez.
      replace (i + 1 - i) with 1 by lia. cbn [firstn brace_depth].
      rewrite El, Er. split; [lia|].
      apply Ascii.eqb_eq in Er. subst x. now exists [].
    + apply (Hrec (c - 1)%Z); auto; simpl; rewrite ?El, ?Er; lia.
  - apply (Hrec c); auto; simpl; rewrite ?El, ?Er; lia.
Qed.

(** X5.  When the brace loop reaches its [break], the span it delimits
    closes as many braces as it opens and ends with a closing brace.  (For
    buffers shorter than [2^31], the range of the counter.) *)
Theorem closed_span_balanced (json : text) (pos : nat) :
  (Z.of_nat (length json) <= int_max)%Z ->
  pos < matching_end json pos ->
  brace_depth (substr json pos (matching_end json pos - pos)) = 0%Z
  /\ exists body,
       substr json pos (matching_end json pos - pos) = body ++ [ch_rbrace].
Proof.
  intros Hlen Hclosed. unfold matching_end in *.
  destruct (brace_loop (skipn pos json) pos 0) as [e|] eqn:E; [|lia].
  unfold substr.
  apply brace_loop_some in E as [Hd Hb].
  - split; [lia | exact Hb].
  - rewrite length_skipn. unfold int_max in Hlen. lia.
  - rewrite length_skipn. lia.
Qed.

Lemma closed_span_balanced_witness :
  let json := json_text "{'main':{'temp':21.5,'humidity':60}}" in
  brace_depth (substr json 8 (matching_end json 8 - 8)) = 0%Z
  /\ exists body, substr json 8 (matching_end json 8 - 8) = body ++ [ch_rbrace].
Proof.
  apply (closed_span_balanced
           (json_text "{'main':{'temp':21.5,'humidity':60}}") 8).
  - vm_compute. discriminate.
  - vm_compute. repeat constructor.
Defined.

Lemma brace_loop_same (l1 l2 : text) :
  Forall2 same_brace l1 l2 ->
  forall i c, brace_loop l1 i c = brace_loop l2 i c.
Proof.
  induction 1 as [|a b l1 l2 [Hl Hr] _ IH]; intros i c; [reflexivity|].
  cbn [brace_loop]. rewrite Hl, Hr.
  destruct (Ascii.eqb b ch_rbrace); [destruct (_ =? 0)%Z|]; auto.
Qed.

Lemma Forall2_skipn {A} (R : A -> A -> Prop) (n : nat) :
  forall l1 l2, Forall2 R l1 l2 -> Forall2 R (skipn n l1) (skipn n l2).
Proof.
  induction n as [|n IH]; intros l1 l2 H; [exact H|].
  destruct H; simpl; auto.
Qed.

(** X6.  The brace loop looks at nothing but braces: two buffers with
    their braces at the same places have the same [matching_end], whatever
    the other characters are, quotes included.  A brace inside a string
    literal therefore counts like any other. *)
Theorem matching_end_only_braces (json1 json2 : text) (pos : nat) :
  Forall2 same_brace json1 json2 ->
  matching_end json1 pos = matching_end json2 pos.
Proof.
  intros H. unfold matching_end.
  now rewrite (brace_loop_same _ _ (Forall2_skipn _ pos _ _ H)).
Qed.

Lemma matching_end_only_braces_witness :
  matching_end (json_text "{'a':'}'}") 0 = matching_end (str "{xxxxx}x}") 0.
Proof.
  apply (matching_end_only_braces (json_text "{'a':'}'}") (str "{xxxxx}x}") 0).
  vm_compute. repeat constructor.
Defined.

(** X7.  A dotted key descends into the object of its first segment and
    nowhere else.  Let the buffer hold the quoted parent key, with no
    earlier occurrence of it, then no opening brace up to the one that
    opens an object whose body has its braces matched, then anything.  The
    result is that of the rest of the key on the object's own text: what
    follows the object plays no part.  (Buffers shorter than [2^31].) *)
Theorem extract_nested
    (json pre parent mid body post key child : text) :
  json = pre ++ quoted parent ++ mid ++ ch_lbrace :: body ++ ch_rbrace :: post ->
  key = parent ++ ch_dot :: child ->
  ~ In ch_dot parent ->
  (forall j, j < length pre -> ~ occurs_at (quoted parent) json j) ->
  ~ In ch_lbrace (parent ++ mid) ->
  balanced body ->
  (Z.of_nat (length json) <= int_max)%Z ->
  extractJsonValue json key
  = extractJsonValue (ch_lbrace :: body ++ [ch_rbrace]) child.
Proof.
  intros -> -> Hdot Hfirst Hbrace [Hpre Htot] Hlen.
  rewrite extractJsonValue_unfold.
  assert (Hd : find_char ch_dot (parent ++ ch_dot :: child) = Some (length parent))
    by exact (find_char_after ch_dot [] parent child Hdot).
  rewrite Hd.
  assert (Hparent : substr (parent ++ ch_dot :: child) 0 (length parent) = parent)
    by apply firstn_app_length.
  rewrite Hparent.
  rewrite find_first_occurrence by exact Hfirst.
  replace (pre ++ quoted parent ++ mid ++ ch_lbrace :: body ++ ch_rbrace :: post)
    with (pre ++ (quoted parent ++ mid) ++ ch_lbrace :: body ++ ch_rbrace :: post)
    in * by now rewrite <- app_assoc.
  rewrite find_char_after.
  2:{ unfold quoted. simpl. intros [H | H]; [discriminate|].
      rewrite <- app_assoc in H. apply in_app_or in H as [H | H].
      - apply Hbrace, in_or_app. now left.
      - simpl in H. destruct H as [H | H]; [discriminate|].
        apply Hbrace, in_or_app. now right. }
  set (pos := length pre + length (quoted parent ++ mid)).
  assert (Hskip : skipn pos
                    (pre ++ (quoted parent ++ mid)
                         ++ ch_lbrace :: body ++ ch_rbrace :: post)
                  = ch_lbrace :: body ++ ch_rbrace :: post)
    by apply skipn_app2.
  rewrite !length_app in Hlen. cbn [length] in Hlen. rewrite !length_app in Hlen.
  cbn [length] in Hlen.
  assert (Hend : matching_end
                   (pre ++ (quoted parent ++ mid)
                        ++ ch_lbrace :: body ++ ch_rbrace :: post) pos
                 = pos + length body + 2).
  { unfold matching_end. rewrite Hskip. cbn [brace_loop].
    replace (Ascii.eqb ch_lbrace ch_lbrace) with true by reflexivity.
    replace (Ascii.eqb ch_lbrace ch_rbrace) with false by reflexivity.
    rewrite wrap_int_small by (unfold int_max; lia).
    rewrite brace_loop_close.
    - lia.
    - lia.
    - unfold int_max in *. lia.
    - intros n Hn. specialize (Hpre n Hn). lia.
    - lia. }
  rewrite Hend.
  replace (pos + length body + 2 - pos) with (S (length body + 1)) by lia.
  unfold substr at 1. rewrite Hskip. cbn [firstn].
  replace (length body + 1) with (length (body ++ [ch_rbrace]))
    by (rewrite length_app; simpl; lia).
  change (ch_rbrace :: post) with ([ch_rbrace] ++ post).
  rewrite app_assoc, firstn_app_length.
  f_equal. unfold substr_from.
  replace (length parent + 1) with (length (parent ++ [ch_dot]))
    by (rewrite length_app; simpl; lia).
  change (ch_dot :: child) with ([ch_dot] ++ child).
  rewrite app_assoc. apply skipn_app_length.
Qed.

Lemma extract_nested_witness :
  extractJsonValue
    (json_text "{'main':{'temp':21.5,'x':{}},'wind':{'temp':3}}") (str "main.temp")
  = extractJsonValue (json_text "{'temp':21.5,'x':{}}") (str "temp").
Proof.
  apply (extract_nested
           (json_text "{'main':{'temp':21.5,'x':{}},'wind':{'temp':3}}")
           (str "{") (str "main") (str ":") (json_text "'temp':21.5,'x':{}")
           (json_text ",'wind':{'temp':3}}") (str "main.temp") (str "temp")).
  - reflexivity.
  - reflexivity.
  - not_in_text.
  - not_before_one.
  - not_in_text.
  - split; [|reflexivity].
    intros n Hn. vm_compute in Hn.
    do 19 (destruct n as [|n]; [vm_compute; discriminate|]).
    exfalso. lia.
  - vm_compute. discriminate.
Defined.

Lemma read_string_open (items : list StrItem) (trailer : text) :
  Forall plain_ok items ->
  trailer = [] \/ trailer = [ch_backslash] ->
  read_string (literal_source items ++ trailer) = decoded items ++ trailer.
Proof.
  intros Hitems Htr.
  induction Hitems as [|it items Hit _ IH].
  - destruct Htr as [-> | ->]; reflexivity.
  - destruct it as [c | x]; simpl in *.
    + destruct Hit as [Hq Hb].
      apply Ascii.eqb_neq in Hq, Hb. rewrite Hq, Hb.
      f_equal. exact IH.
    + f_equal. exact IH.
Qed.

(** X8.  A string value that the buffer ends inside is read up to the end
    of the buffer: with the key located as in C3 and no closing quote, the
    result is the decoded text so far, and a lone backslash as the very
    last character is kept as it is. *)
Theorem extract_unterminated_string
    (json pre key mid ws trailer : text) (items : list StrItem) :
  json = member_text pre key mid ws (ch_dquote :: literal_source items ++ trailer) ->
  trailer = [] \/ trailer = [ch_backslash] ->
  ~ In ch_dot key ->
  (forall j, j < length pre -> ~ occurs_at (quoted key) json j) ->
  ~ In ch_colon (key ++ mid) ->
  Forall is_blank ws ->
  Forall plain_ok items ->
  extractJsonValue json key = decoded items ++ trailer.
Proof.
  intros -> Htr Hdot Hfirst Hcolon Hws Hitems.
  rewrite extractJsonValue_unfold, (find_char_absent _ _ Hdot).
  rewrite extract_simple_locate; auto.
  - rewrite Ascii.eqb_refl. now apply read_string_open.
  - intros c l [= <- _] [H | H]; discriminate.
Qed.

Lemma extract_unterminated_string_witness :
  extractJsonValue (json_text "{'k':'ab\tc\") (str "k")
  = decoded [Plain "a"; Plain "b"; Escaped "t"; Plain "c"] ++ [ch_backslash].
Proof.
  apply (extract_unterminated_string (json_text "{'k':'ab\tc\")
           (str "{") (str "k") [] [] [ch_backslash]
           [Plain "a"; Plain "b"; Escaped "t"; Plain "c"]).
  - reflexivity.
  - now right.
  - not_in_text.
  - not_before_one.
  - not_in_text.
  - constructor.
  - repeat constructor; intros H; vm_compute in H; discriminate.
Defined.

(** ** Further properties of [fetchWeather] and the loop *)

(** X9.  [fetchWeather] returns a valid record exactly when the transfer
    was performed and the status is 200; nothing in the body can make a
    200 response invalid, and no other outcome gives a valid record. *)
Theorem fetch_valid_iff (outcome : CurlOutcome) :
  valid (fetchWeather outcome) = true
  <-> exists response_data, outcome = CurlPerformed 200 response_data.
Proof.
  split.
  - destruct outcome as [| |response_code response_data]; simpl; try discriminate.
    destruct (response_code =? 200)%Z eqn:E; simpl; [|discriminate].
    apply Z.eqb_eq in E. subst. intros _. now exists response_data.
  - intros [response_data ->]. apply valid_parse_response.
Qed.

(** X10.  After any run, the cached record is the result of the latest
    call of [fetchWeather] in that run, valid or not, and the record the
    run started with when no call was made. *)
Theorem current_weather_is_last_fetched (cfg : Config) (inputs : list TickInput) :
  forall st,
  current_weather (snd (main_loop cfg inputs st))
  = last_fetched (fst (main_loop cfg inputs st)) (current_weather st).
Proof.
  induction inputs as [|inp inputs IH]; intros st; [reflexivity|].
  destruct (interrupt_received inp) eqn:Hint.
  - cbn [main_loop]. now rewrite Hint.
  - rewrite main_loop_cons by exact Hint. cbn [fst snd].
    rewrite IH. unfold last_fetched at 2. cbn [fold_left].
    rewrite fetches_iteration.
    unfold iteration. cbn [snd current_weather].
    now destruct (refresh_due cfg st).
Qed.

Lemma has_fetch_iteration (cfg : Config) (outcome : CurlOutcome) (st : LoopState) :
  has_fetch (fst (iteration cfg outcome st)) = refresh_due cfg st.
Proof.
  unfold has_fetch. rewrite fetches_iteration.
  now destruct (refresh_due cfg st).
Qed.

Lemma refresh_phase (cfg : Config) (inputs : list TickInput) :
  forall (st : LoopState) (d : Z),
  (1 <= d <= weather_refresh cfg)%Z ->
  (weather_refresh cfg <= int_max)%Z ->
  (next_time_sec st - last_weather_fetch st = d)%Z ->
  Forall running inputs ->
  (time_min <= next_time_sec st)%Z ->
  (next_time_sec st + Z.of_nat (length inputs) <= time_max)%Z ->
  map has_fetch (fst (main_loop cfg inputs st))
  = map (fun k => ((d + Z.of_nat k) mod weather_refresh cfg =? 0)%Z)
        (seq 0 (length inputs)).
Proof.
  induction inputs as [|inp inputs IH]; intros st d Hd Hint Hdiff Hrun Hlo Hhi;
    [reflexivity|].
  apply Forall_cons_iff in Hrun as [Hinp Hrest].
  rewrite main_loop_cons by exact Hinp. cbn [fst snd map length seq].
  cbn [length] in Hhi.
  rewrite has_fetch_iteration.
  assert (Hdue : refresh_due cfg st = (weather_refresh cfg <=? d)%Z).
  { unfold refresh_due. rewrite Hdiff, wrap_time_small; [reflexivity|].
    unfold time_min, time_max, int_max in *. lia. }
  set (st1 := snd (iteration cfg (curl_outcome inp) st)).
  assert (Hnext : next_time_sec st1 = (next_time_sec st + 1)%Z).
  { subst st1. unfold iteration. cbn [snd next_time_sec].
    apply wrap_time_small. unfold time_min, time_max in *. lia. }
  assert (Hlast : last_weather_fetch st1
                  = if refresh_due cfg st then next_time_sec st
                    else last_weather_fetch st) by reflexivity.
  rewrite Hdue in *.
  f_equal.
  - rewrite Z.add_0_r.
    destruct (Z.leb_spec (weather_refresh cfg) d) as [Hle | Hlt].
    + replace d with (weather_refresh cfg) by lia.
      rewrite Z.mod_same by lia. reflexivity.
    + rewrite Z.mod_small by lia. symmetry. apply Z.eqb_neq. lia.
  - rewrite <- seq_shift, map_map.
    destruct (Z.leb_spec (weather_refresh cfg) d) as [Hle | Hlt].
    + rewrite (IH st1 1%Z); try lia; auto; try (rewrite Hnext; lia).
      apply map_ext. intros k.
      replace d with (weather_refresh cfg) by lia.
      replace (weather_refresh cfg + Z.of_nat (S k))%Z
        with (1 + Z.of_nat k + 1 * weather_refresh cfg)%Z by lia.
      now rewrite Z.mod_add by lia.
    + rewrite (IH st1 (d + 1)%Z); try lia; auto; try (rewrite Hnext; lia).
      apply map_ext. intros k. do 2 f_equal. lia.
Qed.

(** X11.  With a refresh interval of R seconds, R at least 1, a run that
    starts with a refresh due calls [fetchWeather] in its iterations 0, R,
    2R, ... and in no other, whether the calls succeed or fail.  (The
    interval is an [int] and the deadlines stay within [time_t].) *)
Theorem refresh_every_interval (cfg : Config) (inputs : list TickInput)
    (st : LoopState) :
  refresh_due cfg st = true ->
  (1 <= weather_refresh cfg <= int_max)%Z ->
  Forall running inputs ->
  (time_min <= next_time_sec st)%Z ->
  (next_time_sec st + Z.of_nat (length inputs) <= time_max)%Z ->
  map has_fetch (fst (main_loop cfg inputs st))
  = map (fun k => (Z.of_nat k mod weather_refresh cfg =? 0)%Z)
        (seq 0 (length inputs)).
Proof.
  intros Hdue HR Hrun Hlo Hhi.
  destruct inputs as [|inp inputs]; [reflexivity|].
  inversion Hrun as [|? ? Hinp Hrest]; subst.
  rewrite main_loop_cons by exact Hinp. cbn [fst snd map length seq].
  cbn [length] in Hhi.
  rewrite has_fetch_iteration, Hdue.
  f_equal.
  set (st1 := snd (iteration cfg (curl_outcome inp) st)).
  assert (Hnext : next_time_sec st1 = (next_time_sec st + 1)%Z).
  { subst st1. unfold iteration. cbn [snd next_time_sec].
    apply wrap_time_small. unfold time_min, time_max in *. lia. }
  assert (Hlast : last_weather_fetch st1 = next_time_sec st).
  { subst st1. unfold iteration. cbn [snd last_weather_fetch]. now rewrite Hdue. }
  rewrite (refresh_phase cfg inputs st1 1%Z); try lia; auto;
    try (rewrite Hnext; lia).
  rewrite <- seq_shift, map_map.
  apply map_ext. intros k. do 2 f_equal. lia.
Qed.

Lemma refresh_every_interval_witness :
  let cfg := mkConfig [str "%H:%M"] 3 (str "metric") in
  let inputs := repeat (mkTickInput false CurlPerformFailed) 7 in
  map has_fetch (fst (main_loop cfg inputs (init_state 1700000000)))
  = map (fun k => (Z.of_nat k mod weather_refresh cfg =? 0)%Z)
        (seq 0 (length inputs)).
Proof.
  apply (refresh_every_interval (mkConfig [str "%H:%M"] 3 (str "metric"))
           (repeat (mkTickInput false CurlPerformFailed) 7)
           (init_state 1700000000)).
  - reflexivity.
  - vm_compute. split; discriminate.
  - repeat constructor.
  - vm_compute. discriminate.
  - vm_compute. discriminate.
Defined.

(** X12.  With a refresh interval of zero or less, every iteration calls
    [fetchWeather], from any state whose last fetch is not after its
    deadline.  (The deadlines stay within [time_t].) *)
Theorem refresh_every_tick (cfg : Config) (inputs : list TickInput) :
  forall (st : LoopState),
  (weather_refresh cfg <= 0)%Z ->
  (0 <= next_time_sec st - last_weather_fetch st <= time_max)%Z ->
  Forall running inputs ->
  (time_min <= next_time_sec st)%Z ->
  (next_time_sec st + Z.of_nat (length inputs) <= time_max)%Z ->
  map has_fetch (fst (main_loop cfg inputs st)) = repeat true (length inputs).
Proof.
  induction inputs as [|inp inputs IH]; intros st HR Hdiff Hrun Hlo Hhi;
    [reflexivity|].
  inversion Hrun as [|? ? Hinp Hrest]; subst.
  rewrite main_loop_cons by exact Hinp. cbn [fst snd map length repeat].
  cbn [length] in Hhi.
  assert (Hdue : refresh_due cfg st = true).
  { unfold refresh_due. rewrite wrap_time_small.
    - apply Z.leb_le. lia.
    - unfold time_min, time_max in *. lia. }
  rewrite has_fetch_iteration, Hdue. f_equal.
  set (st1 := snd (iteration cfg (curl_outcome inp) st)).
  assert (Hnext : next_time_sec st1 = (next_time_sec st + 1)%Z).
  { subst st1. unfold iteration. cbn [snd next_time_sec].
    apply wrap_time_small. unfold time_min, time_max in *. lia. }
  assert (Hlast : last_weather_fetch st1 = next_time_sec st).
  { subst st1. unfold iteration. cbn [snd last_weather_fetch]. now rewrite Hdue. }
  apply IH; auto; rewrite ?Hnext, ?Hlast; unfold time_max in *; lia.
Qed.

Lemma refresh_every_tick_witness :
  let cfg := mkConfig [str "%H:%M"] 0 (str "metric") in
  let inputs := repeat (mkTickInput false CurlPerformFailed) 4 in
  map has_fetch (fst (main_loop cfg inputs (init_state 1700000000)))
  = repeat true (length inputs).
Proof.
  apply (refresh_every_tick (mkConfig [str "%H:%M"] 0 (str "metric"))
           (repeat (mkTickInput false CurlPerformFailed) 4)
           (init_state 1700000000)).
  - vm_compute. discriminate.
  - vm_compute. split; discriminate.
  - repeat constructor.
  - vm_compute. discriminate.
  - vm_compute. discriminate.
Defined.

(** X13.  The loop ends at the first iteration that finds the interrupt
    flag set: that iteration and everything after it leave no event and do
    not touch the state. *)
Theorem interrupt_stops_loop (cfg : Config) (before after : list TickInput)
    (inp : TickInput) :
  forall st,
  Forall running before ->
  interrupt_received inp = true ->
  main_loop cfg (before ++ inp :: after) st = main_loop cfg before st.
Proof.
  induction before as [|b before IH]; intros st Hrun Hint.
  - cbn [app main_loop]. now rewrite Hint.
  - inversion Hrun as [|? ? Hb Hrest]; subst.
    change ((b :: before) ++ inp :: after) with (b :: (before ++ inp :: after)).
    rewrite !main_loop_cons by exact Hb.
    now rewrite IH.
Qed.

Lemma interrupt_stops_loop_witness :
  let cfg := mkConfig [str "%H:%M"] 600 (str "metric") in
  main_loop cfg ([mkTickInput false CurlPerformFailed]
                   ++ mkTickInput true CurlPerformFailed
                   :: [mkTickInput false (CurlPerformed 200 [])])
            (init_state 1700000000)
  = main_loop cfg [mkTickInput false CurlPerformFailed] (init_state 1700000000).
Proof.
  apply (interrupt_stops_loop (mkConfig [str "%H:%M"] 600 (str "metric"))
           [mkTickInput false CurlPerformFailed]
           [mkTickInput false (CurlPerformed 200 [])]
           (mkTickInput true CurlPerformFailed) (init_state 1700000000)).
  - repeat constructor.
  - reflexivity.
Defined.

Lemma clock_times_app (a b : list Event) :
  clock_times (a ++ b) = clock_times a ++ clock_times b.
Proof. apply flat_map_app. Qed.

Lemma clock_times_clock (lines : list text) (t : Z) :
  clock_times (map (fun line => EvDrawClock line t) lines)
  = repeat t (length lines).
Proof. induction lines; simpl; [reflexivity | now f_equal]. Qed.

Lemma iteration_frame (cfg : Config) (outcome : CurlOutcome) (st : LoopState) :
  exists middle,
    fst (iteration cfg outcome st)
    = EvFill :: middle ++ [EvWaitUntil (next_time_sec st); EvSwap]
    /\ clock_times middle = repeat (next_time_sec st) (length (format_lines cfg))
    /\ waits middle = [].
Proof.
  exists ((if refresh_due cfg st then [EvFetchWeather (fetchWeather outcome)] else [])
          ++ map (fun line => EvDrawClock line (next_time_sec st)) (format_lines cfg)
          ++ [weather_line cfg (current_weather (snd (iteration cfg outcome st)))]).
  repeat split.
  - unfold iteration. cbn [fst snd current_weather].
    rewrite <- !app_assoc. reflexivity.
  - rewrite !clock_times_app, clock_times_clock.
    unfold weather_line.
    destruct (refresh_due cfg st);
      destruct (valid _); simpl; now rewrite app_nil_r.
  - rewrite !waits_app, waits_clock, waits_weather_line.
    now destruct (refresh_due cfg st).
Qed.

(** X14.  Every iteration of every run fills the canvas first, formats
    each of its clock lines from the very deadline it then waits for, and
    swaps the frame only after that wait, as its last action: the frame
    shown from second t on carries the clock text of t. *)
Theorem frames_show_their_deadline (cfg : Config) (inputs : list TickInput) :
  forall st,
  Forall (fun evs =>
            exists t middle,
              evs = EvFill :: middle ++ [EvWaitUntil t; EvSwap]
              /\ clock_times middle = repeat t (length (format_lines cfg))
              /\ waits middle = [])
         (fst (main_loop cfg inputs st)).
Proof.
  induction inputs as [|inp inputs IH]; intros st; [constructor|].
  destruct (interrupt_received inp) eqn:Hint.
  - cbn [main_loop]. rewrite Hint. constructor.
  - rewrite main_loop_cons by exact Hint. cbn [fst]. constructor; [|apply IH].
    destruct (iteration_frame cfg (curl_outcome inp) st) as (middle & H).
    now exists (next_time_sec st), middle.
Qed.

(** ** Properties of [loadEnv] and of the environment check *)

Lemma map_find_assign_same (key value : text) (env_map : EnvMap) :
  map_find key (map_assign key value env_map) = Some value.
Proof.
  unfold map_assign. cbn [map_find].
  destruct (list_eq_dec ascii_dec key key); [reflexivity | contradiction].
Qed.

Lemma map_find_assign_other (key key' value : text) (env_map : EnvMap) :
  key <> key' ->
  map_find key (map_assign key' value env_map) = map_find key env_map.
Proof.
  intros H. unfold map_assign. cbn [map_find].
  destruct (list_eq_dec ascii_dec key key'); [contradiction | reflexivity].
Qed.

Lemma map_find_override_same (getenv : text -> option text) (name : text)
    (env_map : EnvMap) :
  map_find name (override getenv name env_map)
  = match getenv name with
    | Some value => Some value
    | None => map_find name env_map
    end.
Proof.
  unfold override. destruct (getenv name); [apply map_find_assign_same | reflexivity].
Qed.

Lemma map_find_override_other (getenv : text -> option text) (key name : text)
    (env_map : EnvMap) :
  key <> name ->
  map_find key (override getenv name env_map) = map_find key env_map.
Proof.
  intros H. unfold override.
  destruct (getenv name); [now apply map_find_assign_other | reflexivity].
Qed.

Ltac names_differ :=
  let H := fresh in intros H; vm_compute in H; discriminate.

(** What a lookup of one of the four variables finds after [loadEnv]. *)
Lemma loadEnv_find_name (env_file : option (list text))
    (getenv : text -> option text) (env_map : EnvMap) (name : text) :
  In name env_names ->
  map_find name (loadEnv env_file getenv env_map)
  = match getenv name with
    | Some value => Some value
    | None =>
        map_find name
          match env_file with
          | Some lines => load_file lines env_map
          | None => env_map
          end
    end.
Proof.
  unfold env_names, loadEnv. cbv zeta.
  intros [<- | [<- | [<- | [<- | []]]]].
  - rewrite !map_find_override_other by names_differ.
    apply map_find_override_same.
  - rewrite !map_find_override_other by names_differ.
    rewrite map_find_override_same.
    destruct (getenv (str "WEATHER_LAT")); [reflexivity|].
    now rewrite map_find_override_other by names_differ.
  - rewrite map_find_override_other by names_differ.
    rewrite map_find_override_same.
    destruct (getenv (str "WEATHER_LON")); [reflexivity|].
    now rewrite !map_find_override_other by names_differ.
  - rewrite map_find_override_same.
    destruct (getenv (str "WEATHER_LANG")); [reflexivity|].
    now rewrite !map_find_override_other by names_differ.
Qed.



(** X16.  For every other key the process environment plays no part:
    [loadEnv] leaves what the file assigned. *)
Theorem env_other_keys_from_file (env_file : option (list text))
    (getenv : text -> option text) (env_map : EnvMap) (key : text) :
  ~ In key env_names ->
  map_find key (loadEnv env_file getenv env_map)
  = map_find key
      match env_file with
      | Some lines => load_file lines env_map
      | None => env_map
      end.
Proof.
  unfold env_names, loadEnv. cbv zeta. intros H.
  rewrite !map_find_override_other; [reflexivity | | | |];
    intros ->; apply H; simpl; auto.
Qed.

Lemma env_other_keys_from_file_witness :
  map_find (str "HOME")
    (loadEnv (Some [str "HOME=/tmp"]) (fun _ => Some (str "/root")) [])
  = map_find (str "HOME") (load_file [str "HOME=/tmp"] []).
Proof.
  apply (env_other_keys_from_file (Some [str "HOME=/tmp"])
           (fun _ => Some (str "/root")) [] (str "HOME")).
  not_in_text.
Defined.

Lemma load_file_app (lines1 lines2 : list text) (env_map : EnvMap) :
  load_file (lines1 ++ lines2) env_map = load_file lines2 (load_file lines1 env_map).
Proof. apply fold_left_app. Qed.

Lemma load_line_assignment (key value : text) (env_map : EnvMap) :
  ~ In ch_equals key ->
  (forall rest, key <> ch_hash :: rest) ->
  load_line (key ++ ch_equals :: value) env_map
  = map_assign key (strip_quotes value) env_map.
Proof.
  intros Hkey Hhash. unfold load_line.
  assert (Hf : find_char ch_equals (key ++ ch_equals :: value) = Some (length key))
    by exact (find_char_after ch_equals [] key value Hkey).
  rewrite Hf.
  assert (H0 : Ascii.eqb (nth 0 (key ++ ch_equals :: value) zero) ch_hash = false).
  { destruct key as [|c key]; [reflexivity|]. simpl.
    apply Ascii.eqb_neq. intros ->. now apply (Hhash key). }
  rewrite H0. cbn [negb]. cbv zeta. f_equal.
  - apply firstn_app_length.
  - f_equal. unfold substr_from.
    replace (length key + 1) with (length (key ++ [ch_equals]))
      by (rewrite length_app; simpl; lia).
    change (ch_equals :: value) with ([ch_equals] ++ value).
    rewrite app_assoc. apply skipn_app_length.
Qed.

(** X17.  A line [key=value] whose key holds no equals sign and does not
    start with a hash assigns the value, quotes stripped, to the key: the
    line is split at its first equals sign, so the value may hold more of
    them, and as the last line of the file it wins over every earlier
    assignment of the key. *)
Theorem env_last_line_wins (lines : list text) (key value : text)
    (env_map : EnvMap) :
  ~ In ch_equals key ->
  (forall rest, key <> ch_hash :: rest) ->
  map_find key (load_file (lines ++ [key ++ ch_equals :: value]) env_map)
  = Some (strip_quotes value).
Proof.
  intros Hkey Hhash. rewrite load_file_app. cbn [load_file fold_left].
  rewrite load_line_assignment by assumption.
  apply map_find_assign_same.
Qed.

Lemma env_last_line_wins_witness :
  map_find (str "WEATHER_API_KEY")
    (load_file ([str "WEATHER_API_KEY=old"]
                  ++ [str "WEATHER_API_KEY" ++ ch_equals :: str "ab=cd=="]) [])
  = Some (strip_quotes (str "ab=cd==")).
Proof.
  apply (env_last_line_wins [str "WEATHER_API_KEY=old"]
           (str "WEATHER_API_KEY") (str "ab=cd==") []).
  - not_in_text.
  - intros rest H. vm_compute in H. discriminate.
Defined.

(** X18.  Lines without an equals sign and lines that start with a hash
    change nothing: a file made of such lines leaves the map as it was. *)
Theorem env_ignored_lines (lines : list text) (env_map : EnvMap) :
  Forall ignored_line lines -> load_file lines env_map = env_map.
Proof.
  induction 1 as [|line lines Hline _ IH]; [reflexivity|].
  cbn [load_file fold_left].
  replace (load_line line env_map) with env_map; [exact IH|].
  unfold load_line. destruct Hline as [Hno | [rest ->]].
  - now rewrite (find_char_absent _ _ Hno).
  - destruct (find_char ch_equals (ch_hash :: rest)); reflexivity.
Qed.

Lemma env_ignored_lines_witness :
  load_file [str "# WEATHER_LAT=1"; []; str "no assignment here"]
            [(str "WEATHER_LAT", str "48.1")]
  = [(str "WEATHER_LAT", str "48.1")].
Proof.
  apply (env_ignored_lines [str "# WEATHER_LAT=1"; []; str "no assignment here"]
           [(str "WEATHER_LAT", str "48.1")]).
  apply Forall_cons; [right; now exists (str " WEATHER_LAT=1")|].
  apply Forall_cons; [left; intros []|].
  apply Forall_cons; [left; not_in_text|].
  apply Forall_nil.
Defined.

Lemma nth_last_app (s : text) (c : ascii) :
  nth (length (s ++ [c]) - 1) (s ++ [c]) zero = c.
Proof.
  rewrite length_app. simpl.
  replace (length s + 1 - 1) with (length s) by lia.
  rewrite app_nth2 by lia. now rewrite Nat.sub_diag.
Qed.

(** X19.  Stripping undoes quoting: a value written between two double
    quotes is stored as the text between them, whatever that text is, and
    only the outermost pair is removed. *)
Theorem strip_quotes_quoted (s : text) : strip_quotes (quoted s) = s.
Proof.
  unfold strip_quotes, quoted.
  change (ch_dquote :: s ++ [ch_dquote]) with ((ch_dquote :: s) ++ [ch_dquote]).
  rewrite nth_last_app.
  replace (2 <=? length ((ch_dquote :: s) ++ [ch_dquote])) with true
    by (symmetry; apply Nat.leb_le; rewrite length_app; simpl; lia).
  cbn [nth app]. rewrite Ascii.eqb_refl. cbn [andb].
  unfold substr. cbn [skipn length].
  replace (S (length (s ++ [ch_dquote])) - 2) with (length s)
    by (rewrite length_app; simpl; lia).
  apply firstn_app_length.
Qed.

Lemma map_index_fst (key : text) (env_map : EnvMap) :
  fst (map_index key env_map)
  = match map_find key env_map with Some v => v | None => [] end.
Proof. unfold map_index. now destruct (map_find key env_map). Qed.

Lemma map_index_snd_other (key key' : text) (env_map : EnvMap) :
  key' <> key ->
  map_find key' (snd (map_index key env_map)) = map_find key' env_map.
Proof.
  intros H. unfold map_index.
  destruct (map_find key env_map); [reflexivity|].
  now apply map_find_assign_other.
Qed.

(** The check of lines 402-411 in terms of lookups in the loaded map. *)
Lemma check_env_lookup (env_file : option (list text))
    (getenv : text -> option text) :
  let env_map := loadEnv env_file getenv [] in
  let get key := match map_find key env_map with Some v => v | None => [] end in
  check_env env_file getenv
  = if empty (get (str "WEATHER_API_KEY")) || empty (get (str "WEATHER_LAT"))
       || empty (get (str "WEATHER_LON"))
    then MissingEnv
    else EnvReady (get (str "WEATHER_API_KEY")) (get (str "WEATHER_LAT"))
           (get (str "WEATHER_LON"))
           match map_find (str "WEATHER_LANG") env_map with
           | Some lang => lang
           | None => str "en"
           end.
Proof.
  cbv zeta. unfold check_env.
  set (m0 := loadEnv env_file getenv []).
  destruct (map_index (str "WEATHER_API_KEY") m0) as [api_key m1] eqn:E1.
  destruct (map_index (str "WEATHER_LAT") m1) as [lat_str m2] eqn:E2.
  destruct (map_index (str "WEATHER_LON") m2) as [lon_str m3] eqn:E3.
  assert (H1 : api_key = fst (map_index (str "WEATHER_API_KEY") m0)) by now rewrite E1.
  assert (M1 : m1 = snd (map_index (str "WEATHER_API_KEY") m0)) by now rewrite E1.
  assert (H2 : lat_str = fst (map_index (str "WEATHER_LAT") m1)) by now rewrite E2.
  assert (M2 : m2 = snd (map_index (str "WEATHER_LAT") m1)) by now rewrite E2.
  assert (H3 : lon_str = fst (map_index (str "WEATHER_LON") m2)) by now rewrite E3.
  assert (M3 : m3 = snd (map_index (str "WEATHER_LON") m2)) by now rewrite E3.
  rewrite map_index_fst in H1, H2, H3.
  assert (F2 : map_find (str "WEATHER_LAT") m1 = map_find (str "WEATHER_LAT") m0).
  { rewrite M1. apply map_index_snd_other. names_differ. }
  assert (F3 : map_find (str "WEATHER_LON") m2 = map_find (str "WEATHER_LON") m0).
  { rewrite M2, map_index_snd_other by names_differ.
    rewrite M1. apply map_index_snd_other. names_differ. }
  assert (F4 : map_find (str "WEATHER_LANG") m3 = map_find (str "WEATHER_LANG") m0).
  { rewrite M3, map_index_snd_other by names_differ.
    rewrite M2, map_index_snd_other by names_differ.
    rewrite M1. apply map_index_snd_other. names_differ. }
  rewrite F2 in H2. rewrite F3 in H3.
  unfold map_count. rewrite map_index_fst, F4.
  rewrite <- H1, <- H2, <- H3.
  destruct (map_find (str "WEATHER_LANG") m0); reflexivity.
Qed.

(** X20.  When the process environment gives non-empty values for
    WEATHER_API_KEY, WEATHER_LAT and WEATHER_LON, the check passes with
    exactly these values, with or without a file and whatever it holds.
    The language is WEATHER_LANG of the process environment when that is
    set; otherwise what the file last assigned to WEATHER_LANG; and [en]
    when it is set in neither, be there no file or a file that does not
    assign it. *)
Theorem check_env_from_environment (env_file : option (list text))
    (getenv : text -> option text) (api_key lat_str lon_str : text) :
  getenv (str "WEATHER_API_KEY") = Some api_key ->
  getenv (str "WEATHER_LAT") = Some lat_str ->
  getenv (str "WEATHER_LON") = Some lon_str ->
  api_key <> [] -> lat_str <> [] -> lon_str <> [] ->
  check_env env_file getenv
  = EnvReady api_key lat_str lon_str
      match getenv (str "WEATHER_LANG") with
      | Some value => value
      | None =>
          match map_find (str "WEATHER_LANG")
                  match env_file with
                  | Some lines => load_file lines []
                  | None => []
                  end
          with
          | Some value => value
          | None => str "en"
          end
      end.
Proof.
  intros Ha Hla Hlo Na Nla Nlo.
  rewrite check_env_lookup. cbv zeta.
  rewrite !loadEnv_find_name by (unfold env_names; simpl; auto).
  rewrite Ha, Hla, Hlo.
  destruct api_key; [contradiction|].
  destruct lat_str; [contradiction|].
  destruct lon_str; [contradiction|].
  cbn [empty orb].
  destruct (getenv (str "WEATHER_LANG")); reflexivity.
Qed.

Lemma check_env_from_environment_witness :
  let getenv := fun name =>
    if list_eq_dec ascii_dec name (str "WEATHER_LANG") then None
    else Some (str "1") in
  check_env (Some [str "WEATHER_LAT="; str "# WEATHER_LANG=de"]) getenv
  = EnvReady (str "1") (str "1") (str "1") (str "en")
  /\ check_env (Some [str "WEATHER_LANG=de"; str "WEATHER_LANG=fr"]) getenv
     = EnvReady (str "1") (str "1") (str "1") (str "fr")
  /\ check_env None getenv = EnvReady (str "1") (str "1") (str "1") (str "en").
Proof.
  intros getenv. split; [|split].
  - apply (check_env_from_environment
             (Some [str "WEATHER_LAT="; str "# WEATHER_LANG=de"]) getenv
             (str "1") (str "1") (str "1"));
      first [reflexivity | discriminate].
  - apply (check_env_from_environment
             (Some [str "WEATHER_LANG=de"; str "WEATHER_LANG=fr"]) getenv
             (str "1") (str "1") (str "1"));
      first [reflexivity | discriminate].
  - apply (check_env_from_environment None getenv
             (str "1") (str "1") (str "1"));
      first [reflexivity | discriminate].
Defined.

(** X21.  The check fails, and [main] returns 1, as soon as one of
    WEATHER_API_KEY, WEATHER_LAT and WEATHER_LON is empty in the process
    environment, even if the file gives it a value, or is set neither
    there nor, for want of a file, anywhere. *)
Theorem check_env_missing (env_file : option (list text))
    (getenv : text -> option text) (name : text) :
  In name [str "WEATHER_API_KEY"; str "WEATHER_LAT"; str "WEATHER_LON"] ->
  getenv name = Some [] \/ (getenv name = None /\ env_file = None) ->
  check_env env_file getenv = MissingEnv.
Proof.
  intros Hname Hval.
  assert (Hget : map_find name (loadEnv env_file getenv []) = Some []
                 \/ map_find name (loadEnv env_file getenv []) = None).
  { rewrite loadEnv_find_name
      by (unfold env_names; simpl in *; intuition auto).
    destruct Hval as [-> | [-> ->]]; auto. }
  rewrite check_env_lookup. cbv zeta.
  destruct Hname as [<- | [<- | [<- | []]]];
    destruct Hget as [-> | ->]; cbn [empty orb];
    rewrite ?orb_true_r; reflexivity.
Qed.

Lemma check_env_missing_witness :
  check_env (Some [str "WEATHER_LAT=48.1"])
    (fun name =>
       if list_eq_dec ascii_dec name (str "WEATHER_LAT") then Some []
       else Some (str "1")) = MissingEnv.
Proof.
  apply (check_env_missing (Some [str "WEATHER_LAT=48.1"])
           (fun name =>
              if list_eq_dec ascii_dec name (str "WEATHER_LAT") then Some []
              else Some (str "1"))
           (str "WEATHER_LAT")).
  - right. left. reflexivity.
  - left. reflexivity.
Defined.

(** ** Properties of the [clock_nanosleep] replacement *)

Lemma clock_nanosleep_abs (now_tv : timeval) (request : timespec) :
  (0 <= now_tv_usec now_tv < 1000000)%Z ->
  (0 <= tv_nsec request < 1000000000)%Z ->
  (- 2 ^ 61 <= now_tv_sec now_tv <= 2 ^ 61)%Z ->
  (- 2 ^ 61 <= tv_sec request <= 2 ^ 61)%Z ->
  let diff_ns := ((tv_sec request * 1000000000 + tv_nsec request)
                  - (now_tv_sec now_tv * 1000000000 + now_tv_usec now_tv * 1000))%Z in
  clock_nanosleep TIMER_ABSTIME now_tv request
  = if (diff_ns <? 0)%Z then ReturnZero
    else Nanosleep {| tv_sec := diff_ns / 1000000000;
                      tv_nsec := diff_ns mod 1000000000 |}.
Proof.
  intros Hus Hns Hnow Hreq diff_ns.
  unfold clock_nanosleep. rewrite Z.eqb_refl.
  rewrite (wrap_int_small (now_tv_usec now_tv * 1000))
    by (unfold int_max; lia).
  rewrite (wrap_time_small (tv_sec request - now_tv_sec now_tv))
    by (unfold time_min, time_max; lia).
  rewrite (wrap_time_small (tv_nsec request - now_tv_usec now_tv * 1000))
    by (unfold time_min, time_max; lia).
  set (ds := (tv_sec request - now_tv_sec now_tv)%Z).
  set (dn := (tv_nsec request - now_tv_usec now_tv * 1000)%Z).
  assert (Hdiff : diff_ns = (ds * 1000000000 + dn)%Z) by (subst diff_ns ds dn; lia).
  destruct (Z.ltb_spec dn 0) as [Hneg | Hpos].
  - rewrite (wrap_time_small (ds - 1)) by (unfold time_min, time_max; lia).
    rewrite (wrap_time_small (dn + 1000000000)) by (unfold time_min, time_max; lia).
    assert (Hq : (diff_ns / 1000000000 = ds - 1)%Z).
    { symmetry. apply (Z.div_unique _ _ _ (dn + 1000000000)); lia. }
    assert (Hr : (diff_ns mod 1000000000 = dn + 1000000000)%Z).
    { symmetry. apply (Z.mod_unique _ _ (ds - 1)); lia. }
    rewrite Hq, Hr.
    destruct (Z.ltb_spec (ds - 1) 0); destruct (Z.ltb_spec diff_ns 0);
      try reflexivity; exfalso; lia.
  - assert (Hq : (diff_ns / 1000000000 = ds)%Z).
    { symmetry. apply (Z.div_unique _ _ _ dn); lia. }
    assert (Hr : (diff_ns mod 1000000000 = dn)%Z).
    { symmetry. apply (Z.mod_unique _ _ ds); lia. }
    rewrite Hq, Hr.
    destruct (Z.ltb_spec ds 0); destruct (Z.ltb_spec diff_ns 0);
      try reflexivity; exfalso; lia.
Qed.

(** X22.  With TIMER_ABSTIME and a deadline that has already passed, the
    replacement returns 0 without sleeping.  (Microseconds and nanoseconds
    in their ranges, seconds within [2^61] either way.) *)
Theorem clock_nanosleep_past (now_tv : timeval) (request : timespec) :
  (0 <= now_tv_usec now_tv < 1000000)%Z ->
  (0 <= tv_nsec request < 1000000000)%Z ->
  (- 2 ^ 61 <= now_tv_sec now_tv <= 2 ^ 61)%Z ->
  (- 2 ^ 61 <= tv_sec request <= 2 ^ 61)%Z ->
  (tv_sec request * 1000000000 + tv_nsec request
   < now_tv_sec now_tv * 1000000000 + now_tv_usec now_tv * 1000)%Z ->
  clock_nanosleep TIMER_ABSTIME now_tv request = ReturnZero.
Proof.
  intros Hus Hns Hnow Hreq Hpast.
  rewrite clock_nanosleep_abs by assumption. cbv zeta.
  destruct (Z.ltb_spec
              (tv_sec request * 1000000000 + tv_nsec request
               - (now_tv_sec now_tv * 1000000000 + now_tv_usec now_tv * 1000)) 0);
    [reflexivity | exfalso; lia].
Qed.

Lemma clock_nanosleep_past_witness :
  clock_nanosleep TIMER_ABSTIME (mkTimeval 1700000000 250000)
                  (mkTimespec 1700000000 0) = ReturnZero.
Proof.
  apply (clock_nanosleep_past (mkTimeval 1700000000 250000)
           (mkTimespec 1700000000 0)); simpl; lia.
Defined.

(** X23.  With TIMER_ABSTIME and a deadline not yet passed, the
    replacement sleeps for exactly the time left: it calls [nanosleep]
    with a duration of non-negative seconds and of nanoseconds below
    [10^9] that adds up to the deadline minus the current time.  (Same
    ranges.) *)
Theorem clock_nanosleep_future (now_tv : timeval) (request : timespec) :
  (0 <= now_tv_usec now_tv < 1000000)%Z ->
  (0 <= tv_nsec request < 1000000000)%Z ->
  (- 2 ^ 61 <= now_tv_sec now_tv <= 2 ^ 61)%Z ->
  (- 2 ^ 61 <= tv_sec request <= 2 ^ 61)%Z ->
  (now_tv_sec now_tv * 1000000000 + now_tv_usec now_tv * 1000
   <= tv_sec request * 1000000000 + tv_nsec request)%Z ->
  exists duration,
    clock_nanosleep TIMER_ABSTIME now_tv request = Nanosleep duration
    /\ (0 <= tv_sec duration)%Z
    /\ (0 <= tv_nsec duration < 1000000000)%Z
    /\ (tv_sec duration * 1000000000 + tv_nsec duration
        = (tv_sec request * 1000000000 + tv_nsec request)
          - (now_tv_sec now_tv * 1000000000 + now_tv_usec now_tv * 1000))%Z.
Proof.
  intros Hus Hns Hnow Hreq Hfut.
  rewrite clock_nanosleep_abs by assumption. cbv zeta.
  set (diff_ns := (tv_sec request * 1000000000 + tv_nsec request
                   - (now_tv_sec now_tv * 1000000000 + now_tv_usec now_tv * 1000))%Z).
  destruct (Z.ltb_spec diff_ns 0); [exfalso; subst diff_ns; lia|].
  eexists. split; [reflexivity|]. cbn [tv_sec tv_nsec].
  pose proof (Z.mod_pos_bound diff_ns 1000000000 ltac:(lia)).
  pose proof (Z.div_mod diff_ns 1000000000 ltac:(lia)).
  pose proof (Z.div_pos diff_ns 1000000000 ltac:(lia) ltac:(lia)).
  repeat split; lia.
Qed.

Lemma clock_nanosleep_future_witness :
  exists duration,
    clock_nanosleep TIMER_ABSTIME (mkTimeval 1700000000 250000)
                    (mkTimespec 1700000001 0) = Nanosleep duration
    /\ (0 <= tv_sec duration)%Z
    /\ (0 <= tv_nsec duration < 1000000000)%Z
    /\ (tv_sec duration * 1000000000 + tv_nsec duration
        = (tv_sec (mkTimespec 1700000001 0) * 1000000000
           + tv_nsec (mkTimespec 1700000001 0))
          - (now_tv_sec (mkTimeval 1700000000 250000) * 1000000000
             + now_tv_usec (mkTimeval 1700000000 250000) * 1000))%Z.
Proof.
  apply (clock_nanosleep_future (mkTimeval 1700000000 250000)
           (mkTimespec 1700000001 0)); simpl; lia.
Defined.
